(** * Chromatic Cube Roller: orientation model, roll transition and solver

    A shallow embedding of [types.ts], [constants.ts] and the solver and
    state-machine code of [App.tsx].  JavaScript numbers that hold grid
    coordinates are integers here ([Z]); counters that only ever grow from
    zero are natural numbers; a quotient is taken over the rationals before
    [Math.floor] is applied to it.  A read [a[i]] of an array is a partial
    lookup: [None] stands for JavaScript's [undefined].  Sound effects are
    left out. *)

From Stdlib Require Import ZArith QArith Qround Lia.
From stdpp Require Import base decidable option list strings pretty gmap.

Local Open Scope Z_scope.

(** ** types.ts *)

Inductive ColorType :=
  | GREEN | RED | BLUE | YELLOW | PINK | WHITE | BLACK | GRAY | MAGENTA.

#[global] Instance ColorType_eq_dec : EqDecision ColorType.
Proof. solve_decision. Defined.

(** The string value of each enum member. *)
Definition colorValue (c : ColorType) : string :=
  match c with
  | GREEN => "#22c55e"
  | RED => "#ef4444"
  | BLUE => "#3b82f6"
  | YELLOW => "#eab308"
  | PINK => "#f472b6"
  | WHITE => "#ffffff"
  | BLACK => "#171717"
  | GRAY => "#71717a"
  | MAGENTA => "#d946ef"
  end.

Definition allColorTypes : list ColorType :=
  [GREEN; RED; BLUE; YELLOW; PINK; WHITE; BLACK; GRAY; MAGENTA].

(** ['up' | 'down' | 'left' | 'right'] *)
Inductive Direction := Up | Down | Left | Right.

#[global] Instance Direction_eq_dec : EqDecision Direction.
Proof. solve_decision. Defined.

(** The six facings of the cube ([GameState.cubeFaces], [CubeOrientation]). *)
Record CubeOrientation := mkFaces {
  top : ColorType;
  bottom : ColorType;
  front : ColorType;
  back : ColorType;
  left : ColorType;
  right : ColorType
}.

#[global] Instance CubeOrientation_eq_dec : EqDecision CubeOrientation.
Proof. solve_decision. Defined.

Inductive Status := playing | won | lost.

#[global] Instance Status_eq_dec : EqDecision Status.
Proof. solve_decision. Defined.

(** [ColorType[][]] *)
Abbreviation Grid := (list (list ColorType)).

Record GameState := mkGame {
  initialGrid : Grid;
  grid : Grid;
  cubePosition : Z * Z;
  cubeFaces : CubeOrientation;
  moves : nat;
  matchedCount : nat;
  status : Status;
  highScore : Z;
  aiComparisonScore : option Z;
  aiComparisonMoves : option nat
}.

(** ** constants.ts *)

Definition GRID_SIZE : Z := 5.
Definition START_POS : Z * Z := (2, 2).


Definition INITIAL_CUBE_FACES : CubeOrientation :=
  {| top := WHITE; bottom := PINK; front := RED;
     back := BLUE; left := GREEN; right := YELLOW |}.

(** ** Arrays *)

(** [a[i]] for an integer index: [None] is [undefined]. *)
Definition index {A} (a : list A) (i : Z) : option A :=
  if decide (0 ≤ i) then a !! Z.to_nat i else None.

(** What a piece of code produces: a value, an uncaught [TypeError] (reading
    a property of [undefined]), or no answer within the loop budget the
    model gives it. *)
Inductive result (A : Type) :=
  | Ret (a : A)
  | Throw
  | OutOfBudget.
Arguments Ret {A} a.
Arguments Throw {A}.
Arguments OutOfBudget {A}.

Definition bind {A B} (r : result A) (k : A → result B) : result B :=
  match r with
  | Ret a => k a
  | Throw => Throw
  | OutOfBudget => OutOfBudget
  end.

(** ** Orientation model (App.tsx, AI solver utils) *)

(** Assignments to one field of the copy [n = { ...o }]. *)
Definition set_top (c : ColorType) (n : CubeOrientation) :=
  mkFaces c (bottom n) (front n) (back n) (left n) (right n).
Definition set_bottom (c : ColorType) (n : CubeOrientation) :=
  mkFaces (top n) c (front n) (back n) (left n) (right n).
Definition set_front (c : ColorType) (n : CubeOrientation) :=
  mkFaces (top n) (bottom n) c (back n) (left n) (right n).
Definition set_back (c : ColorType) (n : CubeOrientation) :=
  mkFaces (top n) (bottom n) (front n) c (left n) (right n).
Definition set_left (c : ColorType) (n : CubeOrientation) :=
  mkFaces (top n) (bottom n) (front n) (back n) c (right n).
Definition set_right (c : ColorType) (n : CubeOrientation) :=
  mkFaces (top n) (bottom n) (front n) (back n) (left n) c.

Definition rotateOrientation (o : CubeOrientation) (dir : Direction)
  : CubeOrientation :=
  let n := o in
  match dir with
  | Up =>
      set_back (bottom o) (set_bottom (front o)
        (set_front (top o) (set_top (back o) n)))
  | Down =>
      set_back (top o) (set_bottom (back o)
        (set_front (bottom o) (set_top (front o) n)))
  | Left =>
      set_left (top o) (set_bottom (left o)
        (set_right (bottom o) (set_top (right o) n)))
  | Right =>
      set_right (top o) (set_bottom (right o)
        (set_left (bottom o) (set_top (left o) n)))
  end.

(** [`${o.top}-${o.front}`] *)
Definition getOrientationKey (o : CubeOrientation) : string :=
  colorValue (top o) +:+ "-" +:+ colorValue (front o).

(** Orientations the cube takes when it starts in [o0] and is rolled. *)
Inductive reachable (o0 : CubeOrientation) : CubeOrientation → Prop :=
  | reach_start : reachable o0 o0
  | reach_roll o dir :
      reachable o0 o → reachable o0 (rotateOrientation o dir).

(** The six facings carry six different colours. *)
Definition distinctFaces (o : CubeOrientation) : Prop :=
  NoDup [top o; bottom o; front o; back o; left o; right o].

(** Rolls that bring every face pair (top, front) of the cube about: one
    word per rotation of the cube. *)
Definition rollWords : list (list Direction) :=
  [ []; [Up]; [Down]; [Left]; [Right]; [Up; Up]; [Up; Left]; [Up; Right];
    [Down; Left]; [Down; Right]; [Left; Up]; [Left; Down]; [Left; Left];
    [Right; Up]; [Right; Down]; [Up; Up; Left]; [Up; Up; Right];
    [Up; Left; Up]; [Up; Left; Down]; [Up; Left; Left]; [Up; Right; Up];
    [Up; Right; Down]; [Down; Left; Left]; [Up; Up; Left; Left] ].

Definition orbit (o : CubeOrientation) : list CubeOrientation :=
  (λ w, foldl rotateOrientation o w) <$> rollWords.


(** ** Path solver (App.tsx, [simulateAiStats] and [runAiStep]) *)

(** [interface Node { x; y; faces; path }] *)
Record Node := mkNode {
  x : Z;
  y : Z;
  faces : CubeOrientation;
  path : list Direction
}.

(** Iterations granted to one run of the search loop.  Every iteration
    removes one node from the queue and a node is only pushed under a key
    not seen before; keys of pushed nodes range over 5 x 5 cells and 9 x 9
    colour pairs. *)
Definition searchBudget : nat := 2027.

Module SimulateAiStats.

(** Body of [for (const dir of ['up', 'down', 'left', 'right'])] for the
    node [curr]; [continue] leaves queue and visited set as they are. *)
Definition tryDir (curr : Node) (st : list Node * gset string)
    (dir : Direction) : list Node * gset string :=
  let '(queue, visited) := st in
  let '(nx, ny) :=
    match dir with
    | Up => (x curr, y curr + 1)
    | Down => (x curr, y curr - 1)
    | Left => (x curr - 1, y curr)
    | Right => (x curr + 1, y curr)
    end in
  if (nx <? 0) || (nx >=? GRID_SIZE) || (ny <? 0) || (ny >=? GRID_SIZE)
  then st
  else
    let nextFaces := rotateOrientation (faces curr) dir in
    let key :=
      pretty nx +:+ "," +:+ pretty ny +:+ "," +:+
      getOrientationKey nextFaces in
    if decide (key ∈ visited) then st
    else (queue ++ [mkNode nx ny nextFaces (path curr ++ [dir])],
          {[key]} ∪ visited).

(** [while (queue.length > 0) { ... }] *)
Fixpoint searchLoop (budget : nat) (g : Grid) (queue : list Node)
    (visited : gset string) : result (option (list Direction)) :=
  match budget with
  | O => OutOfBudget
  | S budget =>
      match queue with
      | [] => Ret None
      | curr :: queue =>
          match index g (y curr) with
          | None => Throw
          | Some row =>
              let tileAt := index row (x curr) in
              if bool_decide (tileAt ≠ Some BLACK)
                 && bool_decide (tileAt ≠ Some GRAY)
                 && bool_decide (Some (bottom (faces curr)) = tileAt)
              then Ret (Some (path curr))
              else if (15 <? length (path curr))%nat
              then searchLoop budget g queue visited
              else
                let '(queue, visited) :=
                  foldl (tryDir curr) (queue, visited)
                    [Up; Down; Left; Right] in
                searchLoop budget g queue visited
          end
      end
  end.

Definition findPath (g : Grid) (startX startY : Z)
    (startF : CubeOrientation) : result (option (list Direction)) :=
  let queue := [mkNode startX startY startF []] in
  let visited : gset string :=
    {[ pretty startX +:+ "," +:+ pretty startY +:+ "," +:+
       getOrientationKey startF ]} in
  searchLoop searchBudget g queue visited.

(** One turn of [for (const dir of path)] on the private cube state. *)
Definition follow (st : (Z * Z) * CubeOrientation) (dir : Direction)
    : (Z * Z) * CubeOrientation :=
  let '((px, py), currentFaces) := st in
  let currentFaces := rotateOrientation currentFaces dir in
  match dir with
  | Up => ((px, py + 1), currentFaces)
  | Down => ((px, py - 1), currentFaces)
  | Left => ((px - 1, py), currentFaces)
  | Right => ((px + 1, py), currentFaces)
  end.

(** [gridCopy[cy][cx] = c].  The loop below writes only the cell in which
    the search has just read a colour (lemma [findPath_sound]); a write
    past the end of a row, which would grow the JavaScript array, does
    not occur and is left as no change here. *)
Definition setTile (gridCopy : Grid) (cx cy : Z) (c : ColorType)
    : result Grid :=
  match index gridCopy cy with
  | None => Throw
  | Some row =>
      match index row cx with
      | None => Ret gridCopy
      | Some _ =>
          Ret (<[Z.to_nat cy := <[Z.to_nat cx := c]> row]> gridCopy)
      end
  end.

(** [while (true) { ... }]: every turn blackens one cell. *)
Fixpoint clearLoop (budget : nat) (gridCopy : Grid) (currentPos : Z * Z)
    (currentFaces : CubeOrientation) (totalMoves : nat) : result nat :=
  match budget with
  | O => OutOfBudget
  | S budget =>
      match findPath gridCopy currentPos.1 currentPos.2 currentFaces with
      | OutOfBudget => OutOfBudget
      | Throw => Throw
      | Ret None => Ret totalMoves
      | Ret (Some path) =>
          let totalMoves := (totalMoves + length path)%nat in
          let '(currentPos, currentFaces) :=
            foldl follow (currentPos, currentFaces) path in
          match setTile gridCopy currentPos.1 currentPos.2 BLACK with
          | Ret gridCopy =>
              clearLoop budget gridCopy currentPos currentFaces totalMoves
          | Throw => Throw
          | OutOfBudget => OutOfBudget
          end
      end
  end.

(** [totalMoves > 0 ? Math.floor((25 / totalMoves) * 100) : 0], over the
    rationals. *)
Definition efficiencyOf (totalMoves : nat) : Z :=
  if (0 <? totalMoves)%nat
  then Qfloor ((25 / inject_Z (Z.of_nat totalMoves)) * 100)%Q
  else 0.

Definition simulateAiStats (initialGrid : Grid) : result (Z * nat) :=
  let gridCopy := (λ row : list ColorType, row) <$> initialGrid in
  match clearLoop (S (length (concat initialGrid))) gridCopy
          START_POS INITIAL_CUBE_FACES 0 with
  | Ret totalMoves => Ret (efficiencyOf totalMoves, totalMoves)
  | Throw => Throw
  | OutOfBudget => OutOfBudget
  end.

End SimulateAiStats.

Module RunAiStep.

(** The search written out a second time inside [runAiStep]. *)
Definition tryDir (current : Node) (st : list Node * gset string)
    (dir : Direction) : list Node * gset string :=
  let '(queue, visited) := st in
  let nx := x current in
  let ny := y current in
  let '(nx, ny) :=
    match dir with
    | Up => (nx, ny + 1)
    | Down => (nx, ny - 1)
    | Left => (nx - 1, ny)
    | Right => (nx + 1, ny)
    end in
  if (nx <? 0) || (nx >=? GRID_SIZE) || (ny <? 0) || (ny >=? GRID_SIZE)
  then st
  else
    let nextFaces := rotateOrientation (faces current) dir in
    let key :=
      pretty nx +:+ "," +:+ pretty ny +:+ "," +:+
      getOrientationKey nextFaces in
    if decide (key ∈ visited) then st
    else (queue ++ [mkNode nx ny nextFaces (path current ++ [dir])],
          {[key]} ∪ visited).

(** The loop leaves through [break] with [bestPath] set, or by an empty
    queue with [bestPath] still [null]. *)
Fixpoint searchLoop (budget : nat) (g : Grid) (queue : list Node)
    (visited : gset string) (bestPath : option (list Direction))
    : result (option (list Direction)) :=
  match budget with
  | O => OutOfBudget
  | S budget =>
      match queue with
      | [] => Ret bestPath
      | current :: queue =>
          match index g (y current) with
          | None => Throw
          | Some row =>
              let tileAt := index row (x current) in
              if bool_decide (tileAt ≠ Some BLACK)
                 && bool_decide (tileAt ≠ Some GRAY)
                 && bool_decide (Some (bottom (faces current)) = tileAt)
              then Ret (Some (path current))
              else if (15 <? length (path current))%nat
              then searchLoop budget g queue visited bestPath
              else
                let '(queue, visited) :=
                  foldl (tryDir current) (queue, visited)
                    [Up; Down; Left; Right] in
                searchLoop budget g queue visited bestPath
          end
      end
  end.

(** The path [runAiStep] puts in the move queue, [None] when it switches
    the solver off. *)
Definition bestPathOf (g : Grid) (startX startY : Z)
    (startFaces : CubeOrientation) : result (option (list Direction)) :=
  let queue := [mkNode startX startY startFaces []] in
  let visited : gset string :=
    {[ pretty startX +:+ "," +:+ pretty startY +:+ "," +:+
       getOrientationKey startFaces ]} in
  searchLoop searchBudget g queue visited None.

End RunAiStep.

(** ** Board generator (App.tsx, [generateGrid]) *)









(** ** Game state machine (App.tsx, [App]) *)

(** The React state of the component, with the [localStorage] entry
    ['cube_high_score'] it writes. *)
Record App := mkApp {
  gameState : GameState;
  isRolling : bool;
  rollDirection : option Direction;
  isAiSolving : bool;
  aiMoveQueue : list Direction;
  cube_high_score : option Z
}.

Definition handleRoll (dir : Direction) (a : App) : App :=
  if isRolling a || bool_decide (status (gameState a) ≠ playing) then a
  else
    mkApp (gameState a) true (Some dir) (isAiSolving a) (aiMoveQueue a)
      (cube_high_score a).

(** [Math.floor((25 / nextMoves) * 100)], over the rationals. *)
Definition floorPercent (n : nat) : Z :=
  Qfloor ((25 / inject_Z (Z.of_nat n)) * 100)%Q.

(** [prev.grid.map((row, ry) => row.map((col, rx) => ...))] *)
Definition blacken (g : Grid) (cx cy : Z) : Grid :=
  imap (λ ry row,
    imap (λ rx col,
      if bool_decide (Z.of_nat ry = cy) && bool_decide (Z.of_nat rx = cx)
      then BLACK else col) row) g.

Definition completeRoll (a : App) : result App :=
  match rollDirection a with
  | None => Ret a
  | Some dir =>
      let prev := gameState a in
      let '(cx, cy) := cubePosition prev in
      let oldFaces := cubeFaces prev in
      let newFaces := rotateOrientation oldFaces dir in
      let '(cx, cy) :=
        match dir with
        | Up => (cx, cy + 1)
        | Down => (cx, cy - 1)
        | Left => (cx - 1, cy)
        | Right => (cx + 1, cy)
        end in
      if (cx <? 0) || (cx >=? GRID_SIZE) || (cy <? 0) || (cy >=? GRID_SIZE)
      then
        Ret (mkApp
               (mkGame (initialGrid prev) (grid prev) (cubePosition prev)
                  (cubeFaces prev) (moves prev) (matchedCount prev) lost
                  (highScore prev) (aiComparisonScore prev)
                  (aiComparisonMoves prev))
               false None false (aiMoveQueue a) (cube_high_score a))
      else
        let nextMoves := (moves prev + 1)%nat in
        match index (grid prev) cy with
        | None => Throw
        | Some row =>
            let currentTileColor := index row cx in
            let hit :=
              bool_decide (currentTileColor ≠ Some BLACK)
              && bool_decide (currentTileColor ≠ Some GRAY)
              && bool_decide (currentTileColor = Some (bottom newFaces)) in
            let nextGrid :=
              if hit then blacken (grid prev) cx cy else grid prev in
            let nextMatchedCount :=
              if hit then (matchedCount prev + 1)%nat
              else matchedCount prev in
            let isWon :=
              bool_decide
                (Z.of_nat nextMatchedCount = GRID_SIZE * GRID_SIZE) in
            if isWon then
              let userEfficiency := floorPercent nextMoves in
              let stored :=
                if (highScore prev <? userEfficiency)
                then Some userEfficiency else cube_high_score a in
              match SimulateAiStats.simulateAiStats (initialGrid prev) with
              | Ret aiStats =>
                  Ret (mkApp
                         (mkGame (initialGrid prev) nextGrid (cx, cy)
                            newFaces nextMoves nextMatchedCount won
                            (Z.max (highScore prev) userEfficiency)
                            (Some aiStats.1) (Some aiStats.2))
                         false None false (aiMoveQueue a) stored)
              | Throw => Throw
              | OutOfBudget => OutOfBudget
              end
            else
              Ret (mkApp
                     (mkGame (initialGrid prev) nextGrid (cx, cy) newFaces
                        nextMoves nextMatchedCount (status prev)
                        (highScore prev) (aiComparisonScore prev)
                        (aiComparisonMoves prev))
                     false None (isAiSolving a) (aiMoveQueue a)
                     (cube_high_score a))
        end
  end.

(** A roll asked for through [handleRoll] and committed when the
    animation reports completion. *)
Definition rollOnce (dir : Direction) (a : App) : result App :=
  completeRoll (handleRoll dir a).

Fixpoint rollAll (p : list Direction) (a : App) : result App :=
  match p with
  | [] => Ret a
  | dir :: p => bind (rollOnce dir a) (rollAll p)
  end.

(** [Math.floor((25 / (gameState.moves || 1)) * 100)], the figure shown in
    the panel. *)
Definition userEfficiency (moves : nat) : Z :=
  let shown := if bool_decide (moves = O) then 1%nat else moves in
  floorPercent shown.

(** ** Vocabulary of the statements *)

(** A cell of the board: [0 <= x < GRID_SIZE] and [0 <= y < GRID_SIZE]. *)
Definition inGrid (pos : Z * Z) : Prop :=
  (0 ≤ pos.1 < GRID_SIZE) ∧ (0 ≤ pos.2 < GRID_SIZE).

#[global] Instance inGrid_dec pos : Decision (inGrid pos).
Proof. unfold inGrid. apply _. Defined.

(** A grid of [GRID_SIZE] rows of [GRID_SIZE] cells. *)
Definition squareGrid (g : Grid) : Prop :=
  length g = Z.to_nat GRID_SIZE ∧
  Forall (λ row, length row = Z.to_nat GRID_SIZE) g.

#[global] Instance squareGrid_dec g : Decision (squareGrid g).
Proof. unfold squareGrid. apply _. Defined.

(** Position and orientation of the cube. *)
Definition CubeState : Type := (Z * Z) * CubeOrientation.

(** The cube after the rolls of [p], whether or not they stay on the
    board. *)
Definition rolled (s : CubeState) (p : list Direction) : CubeState :=
  foldl SimulateAiStats.follow s p.

(** Every roll of [p] lands on the board. *)
Fixpoint staysInGrid (s : CubeState) (p : list Direction) : Prop :=
  match p with
  | [] => True
  | dir :: p =>
      inGrid (SimulateAiStats.follow s dir).1 ∧
      staysInGrid (SimulateAiStats.follow s dir) p
  end.

(** The cut-off of the searches: a node with such a path is not
    expanded. *)
Definition tooLong (p : list Direction) : bool := (15 <? length p)%nat.

(** The goal test of the search at a cube state: the cell is not matched,
    not the sentinel, and of the colour of the bottom face. *)
Definition goalAt (g : Grid) (s : CubeState) : bool :=
  match index g s.1.2 with
  | None => false
  | Some row =>
      let tileAt := index row s.1.1 in
      bool_decide (tileAt ≠ Some BLACK)
      && bool_decide (tileAt ≠ Some GRAY)
      && bool_decide (Some (bottom s.2) = tileAt)
  end.

(** The colour read at a cell, [None] when there is none. *)
Definition cellAt (g : Grid) (pos : Z * Z) : option ColorType :=
  row ← index g pos.2; index row pos.1.

(** The key under which the searches record a cube state. *)
Definition stateKey (s : CubeState) : string :=
  pretty s.1.1 +:+ "," +:+ pretty s.1.2 +:+ "," +:+ getOrientationKey s.2.

Definition stateOf (n : Node) : CubeState := ((x n, y n), faces n).

(** The node pushed for direction [dir] when [curr] is expanded. *)
Definition child (curr : Node) (dir : Direction) : Node :=
  let s := SimulateAiStats.follow (stateOf curr) dir in
  mkNode s.1.1 s.1.2 s.2 (path curr ++ [dir]).

(** All keys a pushed node can have. *)
Definition keyUniverse : list string :=
  cx ← seqZ 0 GRID_SIZE; cy ← seqZ 0 GRID_SIZE;
  t ← allColorTypes; f ← allColorTypes;
  [pretty cx +:+ "," +:+ pretty cy +:+ "," +:+
   (colorValue t +:+ "-" +:+ colorValue f)].

(** Keys still free, and the quantity that shrinks with every turn of the
    search loop. *)
Definition freeKeys (visited : gset string) : nat :=
  length (filter (λ k, k ∉ visited) keyUniverse).

Definition searchMeasure (queue : list Node) (visited : gset string) : nat :=
  (length queue + freeKeys visited)%nat.

(** What holds of a node of the queue, for a search of [g] started in
    [s0]: its path leads from [s0] to it over the board, passing only
    states that fail the goal test, and is at most 16 rolls long. *)
Definition tracked (g : Grid) (s0 : CubeState) (n : Node) : Prop :=
  rolled s0 (path n) = stateOf n ∧
  staysInGrid s0 (path n) ∧
  inGrid (x n, y n) ∧
  (length (path n) ≤ 16)%nat ∧
  ∀ p1 p2, path n = p1 ++ p2 → p2 ≠ [] → goalAt g (rolled s0 p1) = false.


(** The state of the search loop between two turns, seen level by level:
    the queue is [A ++ B], the nodes of [A] have paths of [k] rolls, those
    of [B] of [k + 1]; [past] are the nodes already taken from the queue. *)
Record levelInv (g : Grid) (s0 : CubeState) (k : nat)
    (A B past : list Node) (visited : gset string) : Prop := {
  inv_tracked : Forall (tracked g s0) (A ++ B ++ past);
  inv_front : Forall (λ n, length (path n) = k) A;
  inv_rear : Forall (λ n, length (path n) = S k) B;
  inv_past_level : Forall (λ n, (length (path n) ≤ k)%nat) past;
  inv_past_fail : Forall (λ n, goalAt g (stateOf n) = false) past;
  inv_past_expanded :
    Forall (λ n, (length (path n) ≤ 15)%nat → ∀ dir,
              inGrid (x (child n dir), y (child n dir)) →
              stateKey (stateOf (child n dir)) ∈ visited) past;
  inv_visited :
    ∀ key, key ∈ visited →
      ∃ n, n ∈ A ++ B ++ past ∧ stateKey (stateOf n) = key;
  inv_complete :
    ∀ q, (length q ≤ k)%nat → staysInGrid s0 q →
      ∃ n, n ∈ A ++ B ++ past ∧ stateOf n = rolled s0 q
           ∧ (length (path n) ≤ length q)%nat
}.


(** Cells the reference simulation has not blackened yet. *)
Definition nonBlack (g : Grid) : nat :=
  length (filter (λ c, c ≠ BLACK) (concat g)).


(** The cell a roll in direction [dir] leads to. *)
Definition moveTo (pos : Z * Z) (dir : Direction) : Z * Z :=
  match dir with
  | Up => (pos.1, pos.2 + 1)
  | Down => (pos.1, pos.2 - 1)
  | Left => (pos.1 - 1, pos.2)
  | Right => (pos.1 + 1, pos.2)
  end.


(** The state [App] starts in for a given board (also after [restart] or a
    loaded map); [stored] is the ['cube_high_score'] entry. *)
Definition newGame (g : Grid) (stored : option Z) : App :=
  mkApp
    (mkGame g g (START_POS.1, START_POS.2) INITIAL_CUBE_FACES 0 1 playing
       (default 0 stored) None None)
    false None false [] stored.

(** The cube state of a game. *)
Definition cubeOf (a : App) : CubeState :=
  (cubePosition (gameState a), cubeFaces (gameState a)).

(** A game in play with nothing in flight, on a 5 x 5 board. *)
Record readyToRoll (a : App) : Prop := {
  ready_idle : isRolling a = false;
  ready_playing : status (gameState a) = playing;
  ready_open : matchedCount (gameState a) ≠ 25%nat;
  ready_grid : squareGrid (grid (gameState a));
  ready_initial : squareGrid (initialGrid (gameState a));
  ready_pos : inGrid (cubePosition (gameState a))
}.

(** Boards used in the examples. *)
Definition redBoard : Grid :=
  [ [RED; RED; RED; RED; RED];
    [RED; RED; RED; RED; RED];
    [RED; RED; GRAY; RED; RED];
    [RED; RED; RED; RED; RED];
    [RED; RED; RED; RED; MAGENTA] ].

Definition pinkBoard : Grid := replicate 5 (replicate 5 PINK).




(** The cube stands at the left edge of the board, a roll to the left has
    been asked for and its animation runs. *)
Definition atLeftEdge : App :=
  mkApp
    (mkGame redBoard redBoard (0, 2) INITIAL_CUBE_FACES 3 1 playing 0
       None None)
    true (Some Left) false [] None.

(** The same game after the cube has fallen. *)
Definition fallen : App :=
  mkApp
    (mkGame redBoard redBoard (0, 2) INITIAL_CUBE_FACES 3 1 lost 0
       None None)
    false None false [] None.

(** ** The other handlers of [App] (App.tsx) and the end of the animation
    (components/CubeMesh.tsx) *)

(** [useFrame] of [CubeMesh] at the frame in which [progress >= 1]: it calls
    [onRollComplete], which is [completeRoll], and only while a roll is
    shown.  The passing of time is not modelled. *)
Definition animationEnd (a : App) : result App :=
  if isRolling a then
    match rollDirection a with
    | Some _ => completeRoll a
    | None => Ret a
    end
  else Ret a.

(** One firing of the timer of the solver. *)
Definition runAiStep (a : App) : result App :=
  if negb (isAiSolving a)
     || bool_decide (status (gameState a) ≠ playing)
     || isRolling a
  then Ret a
  else
    match aiMoveQueue a with
    | nextMove :: rest =>
        Ret (handleRoll nextMove
               (mkApp (gameState a) (isRolling a) (rollDirection a)
                  (isAiSolving a) rest (cube_high_score a)))
    | [] =>
        match
          RunAiStep.bestPathOf (grid (gameState a))
            (cubePosition (gameState a)).1 (cubePosition (gameState a)).2
            (cubeFaces (gameState a))
        with
        | Ret (Some bestPath) =>
            Ret (mkApp (gameState a) (isRolling a) (rollDirection a)
                   (isAiSolving a) bestPath (cube_high_score a))
        | Ret None =>
            Ret (mkApp (gameState a) (isRolling a) (rollDirection a) false
                   (aiMoveQueue a) (cube_high_score a))
        | Throw => Throw
        | OutOfBudget => OutOfBudget
        end
    end.

(** A firing of the timer and the end of the animation it may have
    started. *)
Definition aiTick (a : App) : result App := bind (runAiStep a) animationEnd.

Fixpoint aiRun (ticks : nat) (a : App) : result App :=
  match ticks with
  | O => Ret a
  | S ticks => bind (aiTick a) (aiRun ticks)
  end.



(** [reader.onload] of [handleLoadMap] for a file whose text parses to
    the array of rows [parsed].  A text that does not parse, or parses to
    something else than an array, leaves the state as it is. *)
Definition loadMap (parsed : Grid) (a : App) : App :=
  if bool_decide (Z.of_nat (length parsed) = GRID_SIZE)
  then
    mkApp
      (mkGame parsed parsed (START_POS.1, START_POS.2) INITIAL_CUBE_FACES
         0 1 playing (default 0 (cube_high_score a)) None None)
      (isRolling a) (rollDirection a) false [] (cube_high_score a)
  else a.

(** [handleKeyDown] for the key [key]. *)
Definition handleKeyDown (key : string) (a : App) : App :=
  if bool_decide (status (gameState a) ≠ playing) || isAiSolving a then a
  else if bool_decide (key = "ArrowUp") || bool_decide (key = "w")
  then handleRoll Up a
  else if bool_decide (key = "ArrowDown") || bool_decide (key = "s")
  then handleRoll Down a
  else if bool_decide (key = "ArrowLeft") || bool_decide (key = "a")
  then handleRoll Left a
  else if bool_decide (key = "ArrowRight") || bool_decide (key = "d")
  then handleRoll Right a
  else a.

(** ** Vocabulary of the further statements *)

(** The game a computation ends in. *)
Definition gameOf (r : result App) : result GameState :=
  bind r (λ a, Ret (gameState a)).

(** Cells still to be matched: neither BLACK nor GRAY. *)
Definition openCells (g : Grid) : nat :=
  length (filter (λ c, c ≠ BLACK ∧ c ≠ GRAY) (concat g)).

(** The six colours of a cube, and its three pairs of opposite faces. *)
Definition faceList (o : CubeOrientation) : list ColorType :=
  [top o; bottom o; front o; back o; left o; right o].

Definition opposite (o : CubeOrientation) (c1 c2 : ColorType) : Prop :=
  (c1 = top o ∧ c2 = bottom o) ∨ (c1 = bottom o ∧ c2 = top o)
  ∨ (c1 = front o ∧ c2 = back o) ∨ (c1 = back o ∧ c2 = front o)
  ∨ (c1 = left o ∧ c2 = right o) ∨ (c1 = right o ∧ c2 = left o).

(** The direction that undoes a roll. *)
Definition backward (dir : Direction) : Direction :=
  match dir with
  | Up => Down
  | Down => Up
  | Left => Right
  | Right => Left
  end.

(** What [completeRoll] leaves when it commits the roll [dir] of the game
    [a] and returns [a']. *)
Definition rollOutcome (a : App) (dir : Direction) (a' : App) : Prop :=
  let prev := gameState a in
  let next := gameState a' in
  let target := moveTo (cubePosition prev) dir in
  let newFaces := rotateOrientation (cubeFaces prev) dir in
  isRolling a' = false ∧ rollDirection a' = None
  ∧ aiMoveQueue a' = aiMoveQueue a
  ∧ initialGrid next = initialGrid prev
  ∧ if decide (inGrid target) then
      cubePosition next = target ∧ cubeFaces next = newFaces
      ∧ moves next = S (moves prev)
      ∧ grid next
        = (if goalAt (grid prev) (target, newFaces)
           then blacken (grid prev) target.1 target.2 else grid prev)
      ∧ matchedCount next
        = (if goalAt (grid prev) (target, newFaces)
           then S (matchedCount prev) else matchedCount prev)
      ∧ status next
        = (if decide (matchedCount next = 25%nat) then won else status prev)
      ∧ isAiSolving a'
        = (if decide (matchedCount next = 25%nat) then false
           else isAiSolving a)
      ∧ highScore prev ≤ highScore next
      ∧ (matchedCount next ≠ 25%nat →
         highScore next = highScore prev
         ∧ cube_high_score a' = cube_high_score a)
    else
      cubePosition next = cubePosition prev ∧ cubeFaces next = cubeFaces prev
      ∧ moves next = moves prev ∧ grid next = grid prev
      ∧ matchedCount next = matchedCount prev ∧ status next = lost
      ∧ isAiSolving a' = false ∧ highScore next = highScore prev
      ∧ cube_high_score a' = cube_high_score a.

(** What every state of a game played on the board [g] satisfies between
    two rolls. *)
Record playedOn (g : Grid) (a : App) : Prop := {
  played_idle : isRolling a = false ∧ rollDirection a = None;
  played_initial : initialGrid (gameState a) = g;
  played_count :
    (matchedCount (gameState a) + openCells (grid (gameState a))
     = 1 + openCells g)%nat;
  played_won :
    status (gameState a) = won ↔ matchedCount (gameState a) = 25%nat
}.

(** The state with another move queue of the solver. *)
Definition withQueue (q : list Direction) (a : App) : App :=
  mkApp (gameState a) (isRolling a) (rollDirection a) (isAiSolving a) q
    (cube_high_score a).

(** A game with a roll on show: the state [handleRoll] leaves when it
    accepts [dir]. *)
Definition midRoll (dir : Direction) (a : App) : App :=
  mkApp (gameState a) true (Some dir) (isAiSolving a) (aiMoveQueue a)
    (cube_high_score a).

(** A board of five rows without cells. *)
Definition hollowBoard : Grid := [[]; []; []; []; []].

(** Further states used in the examples. *)
Definition blackBoard : Grid := replicate 5 (replicate 5 BLACK).

(** [newGame redBoard None] after a roll up, which matches the cell
    (2,3). *)
Definition afterUp : App :=
  mkApp
    (mkGame redBoard (blacken redBoard 2 3) (2, 3)
       (rotateOrientation INITIAL_CUBE_FACES Up) 1 2 playing 0 None None)
    false None false [] None.

(** [newGame hollowBoard None] after three rolls up: the third leaves the
    board. *)
Definition fallenOffHollow : App :=
  mkApp
    (mkGame hollowBoard hollowBoard (2, 4)
       (rotateOrientation (rotateOrientation INITIAL_CUBE_FACES Up) Up)
       2 1 lost 0 None None)
    false None false [] None.

(** A new game with the solver switched on. *)
Definition solverOn (g : Grid) : App :=
  mkApp
    (mkGame g g (START_POS.1, START_POS.2) INITIAL_CUBE_FACES 0 1 playing 0
       None None)
    false None true [] None.

(** ** Orientation lemmas *)

Lemma rotate_in_orbit o w dir :
  w ∈ rollWords →
  rotateOrientation (foldl rotateOrientation o w) dir ∈ orbit o.
Proof.
  intros Hw. destruct o as [a b c d e f].
  unfold rollWords in Hw. unfold orbit, rollWords.
  repeat (apply elem_of_cons in Hw as [-> | Hw]);
    [ destruct dir; cbn; repeat (first [ apply list_elem_of_here | apply list_elem_of_further ]) .. | ].
  by apply elem_of_nil in Hw.
Qed.

Lemma reachable_in_orbit o0 o : reachable o0 o → o ∈ orbit o0.
Proof.
  induction 1 as [| o dir _ IH].
  - unfold orbit, rollWords. apply list_elem_of_here.
  - apply list_elem_of_fmap in IH as (w & -> & Hw).
    by apply rotate_in_orbit.
Qed.

Lemma distinctFaces_neq a b c d e f :
  distinctFaces (mkFaces a b c d e f) →
  a ≠ b ∧ a ≠ c ∧ a ≠ d ∧ a ≠ e ∧ a ≠ f ∧ b ≠ c ∧ b ≠ d ∧ b ≠ e ∧ b ≠ f ∧
  c ≠ d ∧ c ≠ e ∧ c ≠ f ∧ d ≠ e ∧ d ≠ f ∧ e ≠ f.
Proof.
  unfold distinctFaces. cbn. rewrite !NoDup_cons, !not_elem_of_cons.
  tauto.
Qed.

(** Within one cube, top and front fix the other four facings. *)
Lemma orbit_top_front_inj o0 o1 o2 :
  distinctFaces o0 → o1 ∈ orbit o0 → o2 ∈ orbit o0 →
  top o1 = top o2 → front o1 = front o2 → o1 = o2.
Proof.
  destruct o0 as [a b c d e f]. intros Hd%distinctFaces_neq H1 H2.
  destruct Hd as (?&?&?&?&?&?&?&?&?&?&?&?&?&?&?).
  unfold orbit, rollWords in H1, H2. cbn in H1, H2.
  repeat (apply elem_of_cons in H1 as [-> | H1]);
    [ repeat (apply elem_of_cons in H2 as [-> | H2]);
      [ cbn; intros; first [ reflexivity | congruence ] .. | by apply elem_of_nil in H2 ] .. | ].
  by apply elem_of_nil in H1.
Qed.

Lemma colorValue_sep_inj c1 c2 s1 s2 :
  colorValue c1 +:+ s1 = colorValue c2 +:+ s2 → c1 = c2 ∧ s1 = s2.
Proof. destruct c1, c2; cbn; intros H; by simplify_eq. Qed.

Lemma colorValue_inj c1 c2 : colorValue c1 = colorValue c2 → c1 = c2.
Proof. destruct c1, c2; cbn; intros H; by simplify_eq. Qed.

Lemma getOrientationKey_inj o1 o2 :
  getOrientationKey o1 = getOrientationKey o2 →
  top o1 = top o2 ∧ front o1 = front o2.
Proof.
  unfold getOrientationKey. intros [Ht Hf]%colorValue_sep_inj.
  split; [done |]. cbn in Hf. injection Hf as Hf. by apply colorValue_inj.
Qed.

(** ** The search loop *)

Lemma color_in_all c : c ∈ allColorTypes.
Proof.
  destruct c; unfold allColorTypes;
    repeat first [ apply list_elem_of_here | apply list_elem_of_further ].
Qed.

Lemma stateKey_in_universe s : inGrid s.1 → stateKey s ∈ keyUniverse.
Proof.
  intros [Hx Hy]. unfold keyUniverse, stateKey, getOrientationKey.
  apply list_elem_of_bind. exists s.1.1. split; [| apply elem_of_seqZ; unfold GRID_SIZE in *; lia].
  apply list_elem_of_bind. exists s.1.2. split; [| apply elem_of_seqZ; unfold GRID_SIZE in *; lia].
  apply list_elem_of_bind. exists (top s.2). split; [| apply color_in_all].
  apply list_elem_of_bind. exists (front s.2). split; [| apply color_in_all].
  apply list_elem_of_here.
Qed.

Lemma keyUniverse_length : length keyUniverse = 2025%nat.
Proof. vm_compute. reflexivity. Qed.

Lemma freeKeys_bound visited : (freeKeys visited ≤ 2025)%nat.
Proof. unfold freeKeys. rewrite <- keyUniverse_length. apply length_filter. Qed.

Lemma freeKeys_insert k visited :
  k ∈ keyUniverse → k ∉ visited →
  (freeKeys ({[k]} ∪ visited) < freeKeys visited)%nat.
Proof.
  unfold freeKeys. generalize keyUniverse as l.
  induction l as [| a l IH]; intros Hin Hk; [by apply elem_of_nil in Hin |].
  rewrite !filter_cons.
  assert (Hle : (length (filter (λ k0, k0 ∉ {[k]} ∪ visited) l)
                 ≤ length (filter (λ k0, k0 ∉ visited) l))%nat).
  { clear. induction l as [| b l IH]; [done |]. rewrite !filter_cons.
    repeat case_decide; cbn; try lia. set_solver. }
  apply elem_of_cons in Hin as [<- | Hin].
  - repeat case_decide; cbn; try lia; set_solver.
  - specialize (IH Hin Hk). repeat case_decide; cbn; try lia. set_solver.
Qed.
Import SimulateAiStats.

Lemma tryDir_child curr queue visited dir :
  tryDir curr (queue, visited) dir =
    if decide (inGrid (x (child curr dir), y (child curr dir))
               ∧ stateKey (stateOf (child curr dir)) ∉ visited)
    then (queue ++ [child curr dir],
          {[stateKey (stateOf (child curr dir))]} ∪ visited)
    else (queue, visited).
Proof.
  unfold tryDir, child, stateOf, stateKey, inGrid, follow, GRID_SIZE.
  destruct dir; cbn;
    repeat first [ case_decide | case_bool_decide
                 | match goal with |- context [?a <? ?b] => destruct (Z.ltb_spec a b) end
                 | match goal with |- context [?a >=? ?b] => rewrite (Z.geb_leb a b); destruct (Z.leb_spec b a) end ];
    cbn in *; try reflexivity; try (exfalso; lia); try (exfalso; tauto).
Qed.

(** What one expansion does to queue and visited set. *)
Lemma expand_spec curr ds queue visited queue' visited' :
  foldl (tryDir curr) (queue, visited) ds = (queue', visited') →
  ∃ new,
    queue' = queue ++ new ∧
    visited ⊆ visited' ∧
    Forall (λ n, ∃ dir, dir ∈ ds ∧ n = child curr dir ∧ inGrid (x n, y n)
                 ∧ stateKey (stateOf n) ∈ visited') new ∧
    (∀ k, k ∈ visited' → k ∈ visited ∨ ∃ n, n ∈ new ∧ stateKey (stateOf n) = k) ∧
    (∀ dir, dir ∈ ds → inGrid (x (child curr dir), y (child curr dir)) →
       stateKey (stateOf (child curr dir)) ∈ visited') ∧
    (length new + freeKeys visited' ≤ freeKeys visited)%nat.
Proof.
  revert queue visited. induction ds as [| dir ds IH]; intros queue visited; cbn [foldl].
  - intros [= <- <-]. exists []. rewrite app_nil_r.
    repeat split; [done | constructor | by left | intros ? H; by apply elem_of_nil in H | cbn; lia].
  - rewrite tryDir_child. case_decide as Hc.
    + destruct Hc as [Hin Hk]. intros (new & -> & Hsub & Hnew & Hvis & Hall & Hm)%IH.
      exists (child curr dir :: new).
      split; [by rewrite <- app_assoc |].
      split; [set_solver |].
      split.
      { constructor.
        - exists dir. split; [apply list_elem_of_here |].
          split; [done |]. split; [done |]. apply Hsub. set_solver.
        - eapply Forall_impl; [exact Hnew |]. cbn. intros n (d & ? & ? & ? & ?).
          exists d. split; [by apply list_elem_of_further | done]. }
      split.
      { intros k [Hk' | (n & ? & ?)]%Hvis.
        - apply elem_of_union in Hk' as [->%elem_of_singleton | ?]; [| by left].
          right. exists (child curr dir). split; [apply list_elem_of_here | done].
        - right. exists n. split; [by apply list_elem_of_further | done]. }
      split.
      { intros d [-> | Hd]%elem_of_cons Hi; [apply Hsub; set_solver | by apply Hall]. }
      pose proof (freeKeys_insert (stateKey (stateOf (child curr dir))) visited
                    (stateKey_in_universe _ Hin) Hk). cbn. lia.
    + intros (new & -> & Hsub & Hnew & Hvis & Hall & Hm)%IH.
      exists new. split; [done |]. split; [done |].
      split.
      { eapply Forall_impl; [exact Hnew |]. cbn. intros n (d & ? & ? & ? & ?).
        exists d. split; [by apply list_elem_of_further | done]. }
      split; [done |].
      split; [| done].
      intros d [-> | Hd]%elem_of_cons Hi; [| by apply Hall].
      apply Hsub. destruct (decide (stateKey (stateOf (child curr dir)) ∈ visited)); [done | tauto].
Qed.

Lemma searchLoop_terminates g budget queue visited :
  (searchMeasure queue visited < budget)%nat →
  searchLoop budget g queue visited ≠ OutOfBudget.
Proof.
  revert queue visited. induction budget as [| budget IH]; intros queue visited Hm; [lia |].
  cbn [searchLoop]. destruct queue as [| curr queue]; [done |].
  destruct (index g (y curr)) as [row |]; [| done].
  case_match; [done |].
  unfold searchMeasure in *. cbn [length] in Hm.
  case_match.
  - apply IH. unfold searchMeasure. lia.
  - destruct (foldl _ _ _) as [queue' visited'] eqn:Hf.
    apply expand_spec in Hf as (new & -> & _ & _ & _ & _ & Hlen).
    apply IH. unfold searchMeasure. rewrite length_app. lia.
Qed.

(** The search gives an answer on every input. *)
Lemma findPath_terminates g startX startY startF :
  findPath g startX startY startF ≠ OutOfBudget.
Proof.
  unfold findPath. apply searchLoop_terminates.
  unfold searchMeasure, searchBudget. cbn [length].
  pose proof (freeKeys_bound {[pretty startX +:+ "," +:+ pretty startY +:+ "," +:+ getOrientationKey startF]}).
  lia.
Qed.

(** *** Paths recorded in the nodes *)

Lemma rolled_snoc s p dir :
  rolled s (p ++ [dir]) = follow (rolled s p) dir.
Proof. unfold rolled. by rewrite foldl_app. Qed.

Lemma staysInGrid_app s p q :
  staysInGrid s (p ++ q) ↔ staysInGrid s p ∧ staysInGrid (rolled s p) q.
Proof.
  revert s. induction p as [| dir p IH]; intros s; cbn; [tauto |].
  rewrite IH. unfold rolled. cbn. tauto.
Qed.

Lemma stateOf_child curr dir :
  stateOf (child curr dir) = follow (stateOf curr) dir.
Proof. unfold child, stateOf. by destruct dir. Qed.

Lemma goalAt_node g n row :
  index g (y n) = Some row →
  goalAt g (stateOf n) =
    bool_decide (index row (x n) ≠ Some BLACK)
    && bool_decide (index row (x n) ≠ Some GRAY)
    && bool_decide (Some (bottom (faces n)) = index row (x n)).
Proof. unfold goalAt, stateOf. cbn. by intros ->. Qed.

Lemma tracked_start g s0 :
  inGrid s0.1 → tracked g s0 (mkNode s0.1.1 s0.1.2 s0.2 []).
Proof.
  intros Hin. destruct s0 as [[sx sy] sf]. unfold tracked. cbn.
  repeat split; try done; try lia; try apply Hin.
  intros p1 p2 Hp Hne. symmetry in Hp. apply app_eq_nil in Hp as [_ ->]. done.
Qed.

Lemma tracked_child g s0 curr dir :
  tracked g s0 curr → goalAt g (stateOf curr) = false →
  tooLong (path curr) = false →
  inGrid (x (child curr dir), y (child curr dir)) →
  tracked g s0 (child curr dir).
Proof.
  intros (Hroll & Hstay & Hin & Hlen & Hpre) Hgoal Hlong Hc.
  assert (Hr : rolled s0 (path curr ++ [dir]) = stateOf (child curr dir)).
  { by rewrite rolled_snoc, Hroll, stateOf_child. }
  unfold tracked. replace (path (child curr dir)) with (path curr ++ [dir]) by done.
  split; [done |]. split.
  { apply staysInGrid_app. split; [done |]. cbn. split; [| done].
    rewrite <- rolled_snoc, Hr. exact Hc. }
  split; [done |]. split.
  { rewrite length_app. cbn. unfold tooLong in Hlong.
    apply Nat.ltb_ge in Hlong. lia. }
  intros p1 p2 Hp Hne.
  destruct p2 as [| d p2 _] using rev_ind; [done |].
  rewrite app_assoc in Hp. apply app_inj_tail in Hp as [Hp _].
  destruct p2 as [| d' p2].
  - rewrite app_nil_r in Hp. by rewrite <- Hp, Hroll.
  - by apply (Hpre p1 (d' :: p2)).
Qed.

Lemma searchLoop_sound g s0 budget queue visited p :
  Forall (tracked g s0) queue →
  searchLoop budget g queue visited = Ret (Some p) →
  ∃ n, tracked g s0 n ∧ path n = p ∧ goalAt g (stateOf n) = true.
Proof.
  revert queue visited. induction budget as [| budget IH]; intros queue visited Hq; [done |].
  cbn [searchLoop]. destruct queue as [| curr queue]; [done |].
  apply Forall_cons in Hq as [Hcurr Hq].
  destruct (index g (y curr)) as [row |] eqn:Hrow; [| done].
  rewrite <- (goalAt_node g curr row Hrow).
  destruct (goalAt g (stateOf curr)) eqn:Hgoal.
  { intros [= <-]. by exists curr. }
  fold (tooLong (path curr)).
  destruct (tooLong (path curr)) eqn:Hlong; [by apply IH |].
  destruct (foldl _ _ _) as [queue' visited'] eqn:Hf.
  apply expand_spec in Hf as (new & -> & _ & Hnew & _).
  apply IH. apply Forall_app. split; [done |].
  eapply Forall_impl; [exact Hnew |]. cbn.
  intros n (dir & _ & -> & Hin & _). by apply tracked_child.
Qed.

Lemma searchLoop_no_throw g s0 budget queue visited :
  length g = Z.to_nat GRID_SIZE →
  Forall (tracked g s0) queue →
  searchLoop budget g queue visited ≠ Throw.
Proof.
  intros Hg. revert queue visited.
  induction budget as [| budget IH]; intros queue visited Hq; [done |].
  cbn [searchLoop]. destruct queue as [| curr queue]; [done |].
  apply Forall_cons in Hq as [Hcurr Hq].
  destruct (index g (y curr)) as [row |] eqn:Hrow.
  - rewrite <- (goalAt_node g curr row Hrow).
    destruct (goalAt g (stateOf curr)) eqn:Hgoal; [done |].
    fold (tooLong (path curr)).
    destruct (tooLong (path curr)) eqn:Hlong; [by apply IH |].
    destruct (foldl _ _ _) as [queue' visited'] eqn:Hf.
    apply expand_spec in Hf as (new & -> & _ & Hnew & _).
    apply IH. apply Forall_app. split; [done |].
    eapply Forall_impl; [exact Hnew |]. cbn.
    intros n (dir & _ & -> & Hin & _). by apply tracked_child.
  - exfalso. destruct Hcurr as (_ & _ & [_ Hy] & _). cbn in Hy.
    unfold index in Hrow. case_decide; [| lia].
    apply lookup_ge_None in Hrow. unfold GRID_SIZE in *. lia.
Qed.

Lemma findPath_unfold g startX startY startF :
  findPath g startX startY startF =
  searchLoop searchBudget g [mkNode startX startY startF []]
    {[ pretty startX +:+ "," +:+ pretty startY +:+ "," +:+
       getOrientationKey startF ]}.
Proof. reflexivity. Qed.

(** A path returned by [findPath] leads over the board to a state that
    passes the goal test, and to none before its end. *)
Lemma findPath_sound g s0 p :
  inGrid s0.1 →
  findPath g s0.1.1 s0.1.2 s0.2 = Ret (Some p) →
  staysInGrid s0 p ∧ inGrid (rolled s0 p).1 ∧ (length p ≤ 16)%nat ∧
  goalAt g (rolled s0 p) = true ∧
  ∀ p1 p2, p = p1 ++ p2 → p2 ≠ [] → goalAt g (rolled s0 p1) = false.
Proof.
  intros Hin Hf. rewrite findPath_unfold in Hf.
  apply (searchLoop_sound g s0) in Hf
    as (n & (Hroll & Hstay & Hn & Hlen & Hpre) & <- & Hgoal).
  - rewrite Hroll. done.
  - constructor; [by apply tracked_start | constructor].
Qed.

(** *** The visited key *)

Lemma pretty_cell_inj (a b : Z) s t :
  0 ≤ a < GRID_SIZE → 0 ≤ b < GRID_SIZE →
  pretty a +:+ s = pretty b +:+ t → a = b ∧ s = t.
Proof.
  unfold GRID_SIZE. intros Ha Hb.
  assert (Ha' : a = 0 ∨ a = 1 ∨ a = 2 ∨ a = 3 ∨ a = 4) by lia.
  assert (Hb' : b = 0 ∨ b = 1 ∨ b = 2 ∨ b = 3 ∨ b = 4) by lia.
  destruct_or!; subst; vm_compute (pretty _); cbn; intros H; by simplify_eq.
Qed.

Lemma stateKey_inj_cell (s s' : CubeState) :
  inGrid s.1 → inGrid s'.1 → stateKey s = stateKey s' →
  s.1 = s'.1 ∧ top s.2 = top s'.2 ∧ front s.2 = front s'.2.
Proof.
  destruct s as [[cx cy] o], s' as [[cx' cy'] o']. unfold inGrid, stateKey. cbn.
  intros [Hx Hy] [Hx' Hy'] H.
  apply pretty_cell_inj in H as [-> H]; [| done ..].
  cbn in H. injection H as H.
  apply pretty_cell_inj in H as [-> H]; [| done ..].
  cbn in H. injection H as H.
  by apply getOrientationKey_inj in H as [??].
Qed.

Lemma rolled_reachable s p : reachable s.2 (rolled s p).2.
Proof.
  induction p as [| dir p IH] using rev_ind; [constructor |].
  rewrite rolled_snoc.
  replace (follow (rolled s p) dir).2
    with (rotateOrientation (rolled s p).2 dir).
  - by constructor.
  - by destruct (rolled s p) as [[??]?], dir.
Qed.

(** Two states of one cube on the board that share a key are the same. *)
Lemma stateKey_inj_rolled s0 p q :
  distinctFaces s0.2 →
  inGrid (rolled s0 p).1 → inGrid (rolled s0 q).1 →
  stateKey (rolled s0 p) = stateKey (rolled s0 q) →
  rolled s0 p = rolled s0 q.
Proof.
  intros Hd Hp Hq (Hpos & Ht & Hf)%stateKey_inj_cell; [| done ..].
  pose proof (reachable_in_orbit _ _ (rolled_reachable s0 p)) as H1.
  pose proof (reachable_in_orbit _ _ (rolled_reachable s0 q)) as H2.
  pose proof (orbit_top_front_inj _ _ _ Hd H1 H2 Ht Hf) as Ho.
  destruct (rolled s0 p) as [??], (rolled s0 q) as [??]. cbn in *. by subst.
Qed.

(** *** Level structure of the search *)

Ltac list_elem := rewrite ?elem_of_app, ?elem_of_cons in *; tauto.

Section Levels.
Variable g : Grid.
Variable s0 : CubeState.
Hypothesis start_inGrid : inGrid s0.1.
Hypothesis start_distinct : distinctFaces s0.2.

Lemma levelInv_start :
  levelInv g s0 0 [mkNode s0.1.1 s0.1.2 s0.2 []] [] []
    {[ pretty s0.1.1 +:+ "," +:+ pretty s0.1.2 +:+ "," +:+
       getOrientationKey s0.2 ]}.
Proof.
  split; try by constructor.
  - constructor; [by apply tracked_start | constructor].
  - intros key ->%elem_of_singleton. eexists. split; [apply list_elem_of_here |].
    by destruct s0 as [[??]?].
  - intros q Hq _. destruct q; [| cbn in Hq; lia].
    eexists. split; [apply list_elem_of_here |].
    split; [by destruct s0 as [[??]?] | done].
Qed.


Lemma levelInv_skip k curr A B past visited :
  levelInv g s0 k (curr :: A) B past visited →
  goalAt g (stateOf curr) = false → tooLong (path curr) = true →
  levelInv g s0 k A B (curr :: past) visited.
Proof.
  intros [Htr Hfront Hrear Hlev Hfail Hexp Hvis Hcomp] Hgoal Hlong.
  apply Forall_cons in Hfront as [Hk Hfront].
  split; try done.
  - rewrite Forall_forall in Htr |- *. intros n Hn. apply Htr. list_elem.
  - constructor; [lia | done].
  - by constructor.
  - constructor; [| done]. intros Hle. unfold tooLong in Hlong.
    apply Nat.ltb_lt in Hlong. lia.
  - intros key (n & Hn & Hkey)%Hvis. exists n. split; [list_elem | done].
  - intros q Hq Hstay. destruct (Hcomp q Hq Hstay) as (n & Hn & ?).
    exists n. split; [list_elem | done].
Qed.

Lemma levelInv_expand k curr A B past visited queue' visited' :
  levelInv g s0 k (curr :: A) B past visited →
  goalAt g (stateOf curr) = false → tooLong (path curr) = false →
  foldl (tryDir curr) (A ++ B, visited) [Up; Down; Left; Right]
    = (queue', visited') →
  ∃ new, queue' = A ++ (B ++ new)
         ∧ levelInv g s0 k A (B ++ new) (curr :: past) visited'.
Proof.
  intros [Htr Hfront Hrear Hlev Hfail Hexp Hvis Hcomp] Hgoal Hlong
    (new & -> & Hsub & Hnew & Hvis' & Hall & _)%expand_spec.
  apply Forall_cons in Hfront as [Hk Hfront].
  exists new. split; [by rewrite app_assoc |].
  assert (Hcurr : tracked g s0 curr).
  { rewrite Forall_forall in Htr. apply Htr. list_elem. }
  rewrite Forall_forall in Hnew.
  split; try done.
  - rewrite Forall_forall in Htr |- *. intros n Hn.
    rewrite !elem_of_app, elem_of_cons in Hn.
    destruct Hn as [Hn | [[Hn | Hn] | [-> | Hn]]]; try (apply Htr; list_elem).
    destruct (Hnew n Hn) as (dir & _ & -> & Hin & _). by apply tracked_child.
  - apply Forall_app. split; [done |].
    rewrite Forall_forall. intros n (dir & _ & -> & _)%Hnew.
    cbn. rewrite length_app. cbn. lia.
  - constructor; [lia | done].
  - by constructor.
  - constructor.
    + intros _ dir Hin. apply Hall; [| done]. destruct dir; rewrite !elem_of_cons; tauto.
    + eapply Forall_impl; [exact Hexp |]. cbn. intros n Hn Hle dir Hin.
      apply Hsub. by apply Hn.
  - intros key [Hkey | (n & Hn & Hkey)]%Hvis'.
    + destruct (Hvis key Hkey) as (n & Hn & ?). exists n. split; [list_elem | done].
    + exists n. split; [list_elem | done].
  - intros q Hq Hstay. destruct (Hcomp q Hq Hstay) as (n & Hn & ?).
    exists n. split; [list_elem | done].
Qed.

(** When the last node of a level has left the queue, all states one
    roll further are recorded. *)
Lemma levelInv_next k curr B past visited :
  levelInv g s0 k [] (curr :: B) past visited →
  levelInv g s0 (S k) (curr :: B) [] past visited.
Proof.
  intros [Htr _ Hrear Hlev Hfail Hexp Hvis Hcomp].
  assert (Hk : (k ≤ 15)%nat).
  { apply Forall_cons in Hrear as [Hk _].
    apply Forall_cons in Htr as [(_ & _ & _ & Hlen & _) _]. lia. }
  split; try done.
  - eapply Forall_impl; [exact Hlev |]. cbn. lia.
  - intros q Hq Hstay.
    destruct (decide (length q ≤ k)%nat) as [Hle | Hgt].
    { destruct (Hcomp q Hle Hstay) as (n & Hn & Hst & Hlen).
      exists n. split; [list_elem | done]. }
    destruct q as [| dir q _] using rev_ind; [cbn in Hgt; lia |].
    rewrite length_app in Hq, Hgt. cbn in Hq, Hgt.
    apply staysInGrid_app in Hstay as [Hstay [Hlast _]].
    destruct (Hcomp q ltac:(lia) Hstay) as (n & Hn & Hst & Hlen).
    rewrite Forall_forall in Hrear, Hexp, Htr, Hlev.
    assert (Hpast : n ∈ past).
    { rewrite !elem_of_app in Hn. destruct Hn as [Hn | [Hn | Hn]];
        [by apply elem_of_nil in Hn | specialize (Hrear n Hn); lia | done]. }
    assert (Hchild : stateOf (child n dir) = rolled s0 (q ++ [dir])).
    { by rewrite stateOf_child, rolled_snoc, Hst. }
    assert (Hin : inGrid (x (child n dir), y (child n dir))).
    { change (inGrid (stateOf (child n dir)).1). by rewrite stateOf_child, Hst. }
    pose proof (Hexp n Hpast ltac:(lia) dir Hin) as Hkey.
    destruct (Hvis _ Hkey) as (n' & Hn' & Hkey').
    exists n'. split; [list_elem |].
    destruct (Htr n' Hn') as (Hroll' & _ & Hin' & _).
    split.
    + rewrite <- Hchild. rewrite <- Hroll'. rewrite Hchild.
      apply stateKey_inj_rolled; [done | | |].
      * by rewrite Hroll'.
      * by rewrite <- Hchild.
      * by rewrite Hroll', Hkey', Hchild.
    + rewrite length_app. cbn.
      rewrite !elem_of_app in Hn'. destruct Hn' as [Hn' | [Hn' | Hn']].
      * by apply elem_of_nil in Hn'.
      * specialize (Hrear n' Hn'). lia.
      * specialize (Hlev n' Hn'). lia.
Qed.


End Levels.

(** *** The second copy of the search *)

Lemma tryDir_same curr st dir :
  RunAiStep.tryDir curr st dir = tryDir curr st dir.
Proof. destruct st as [queue visited]. by destruct dir. Qed.

Lemma searchLoop_same budget g queue visited :
  RunAiStep.searchLoop budget g queue visited None
  = searchLoop budget g queue visited.
Proof.
  revert queue visited. induction budget as [| budget IH]; intros queue visited; [done |].
  cbn [searchLoop RunAiStep.searchLoop]. destruct queue as [| curr queue]; [done |].
  destruct (index g (y curr)) as [row |]; [| done].
  case_match; [done |]. case_match; [apply IH |].
  cbn [foldl]. rewrite !tryDir_same.
  destruct (tryDir curr _ Right) as [queue' visited']. apply IH.
Qed.

Lemma searchLoop_length budget g queue visited p :
  Forall (λ n, (length (path n) ≤ 16)%nat) queue →
  searchLoop budget g queue visited = Ret (Some p) → (length p ≤ 16)%nat.
Proof.
  revert queue visited. induction budget as [| budget IH]; intros queue visited Hq; [done |].
  cbn [searchLoop]. destruct queue as [| curr queue]; [done |].
  apply Forall_cons in Hq as [Hcurr Hq].
  destruct (index g (y curr)) as [row |]; [| done].
  case_match; [by intros [= <-] |].
  fold (tooLong (path curr)).
  destruct (tooLong (path curr)) eqn:Hlong; [by apply IH |].
  destruct (foldl _ _ _) as [queue' visited'] eqn:Hf.
  apply expand_spec in Hf as (new & -> & _ & Hnew & _).
  apply IH. apply Forall_app. split; [done |].
  eapply Forall_impl; [exact Hnew |]. cbn. intros n (dir & _ & -> & _).
  cbn. rewrite length_app. cbn. unfold tooLong in Hlong.
  apply Nat.ltb_ge in Hlong. lia.
Qed.

(** *** The reference simulation *)


Lemma nonBlack_bound g : (nonBlack g ≤ length (concat g))%nat.
Proof. apply length_filter. Qed.

Lemma nonBlack_row (row : list ColorType) i c :
  row !! i = Some c → c ≠ BLACK →
  (length (filter (λ c, c ≠ BLACK) (<[i := BLACK]> row))
   < length (filter (λ c, c ≠ BLACK) row))%nat.
Proof.
  intros Hi Hc. rewrite <- (take_drop_middle row i c Hi) at 2.
  rewrite insert_take_drop by (by eapply lookup_lt_Some).
  rewrite !filter_app, !filter_cons, !length_app.
  destruct (decide (c ≠ BLACK)); [| done].
  destruct (decide (BLACK ≠ BLACK)); [done |]. cbn. lia.
Qed.

Lemma nonBlack_replace (g : Grid) j row row' :
  g !! j = Some row →
  (length (filter (λ c, c ≠ BLACK) row')
   < length (filter (λ c, c ≠ BLACK) row))%nat →
  (nonBlack (<[j := row']> g) < nonBlack g)%nat.
Proof.
  intros Hj Hrow. unfold nonBlack.
  rewrite insert_take_drop by (by eapply lookup_lt_Some).
  rewrite <- (take_drop_middle g j row Hj) at 3.
  rewrite !concat_app, !concat_cons, !filter_app, !length_app. lia.
Qed.

Lemma nonBlack_insert (g : Grid) j row i c :
  g !! j = Some row → row !! i = Some c → c ≠ BLACK →
  (nonBlack (<[j := <[i := BLACK]> row]> g) < nonBlack g)%nat.
Proof.
  intros Hj Hi Hc. apply (nonBlack_replace g j row); [done |].
  by apply (nonBlack_row row i c).
Qed.

Lemma goalAt_cell g s :
  goalAt g s = true →
  ∃ row c, index g s.1.2 = Some row ∧ index row s.1.1 = Some c
           ∧ c ≠ BLACK ∧ c ≠ GRAY ∧ c = bottom s.2.
Proof.
  unfold goalAt. destruct (index g s.1.2) as [row |]; [| done].
  intros [[H1 H2]%andb_prop H3]%andb_prop.
  apply bool_decide_eq_true in H1, H2, H3.
  exists row, (bottom s.2). rewrite <- H3 in *. repeat split; congruence.
Qed.

Lemma index_Some {A} (a : list A) i v :
  index a i = Some v → 0 ≤ i ∧ a !! Z.to_nat i = Some v.
Proof. unfold index. case_decide; [done | discriminate]. Qed.

Lemma clearLoop_returns budget gridCopy currentPos currentFaces totalMoves :
  length gridCopy = Z.to_nat GRID_SIZE → inGrid currentPos →
  (nonBlack gridCopy < budget)%nat →
  ∃ n, clearLoop budget gridCopy currentPos currentFaces totalMoves = Ret n.
Proof.
  revert gridCopy currentPos currentFaces totalMoves.
  induction budget as [| budget IH];
    intros gridCopy currentPos currentFaces totalMoves Hlen Hpos Hb; [lia |].
  cbn [clearLoop].
  pose proof (findPath_terminates gridCopy currentPos.1 currentPos.2 currentFaces) as Hterm.
  assert (Hthrow : findPath gridCopy currentPos.1 currentPos.2 currentFaces ≠ Throw).
  { rewrite findPath_unfold.
    apply (searchLoop_no_throw gridCopy (currentPos, currentFaces)); [done |].
    constructor; [| constructor].
    by apply (tracked_start gridCopy (currentPos, currentFaces)). }
  destruct (findPath gridCopy currentPos.1 currentPos.2 currentFaces)
    as [[p |] | |] eqn:Hf; [| by eexists | done | done].
  destruct (findPath_sound gridCopy (currentPos, currentFaces) p Hpos Hf)
    as (_ & Hin & _ & Hgoal & _).
  change (foldl follow (currentPos, currentFaces) p)
    with (rolled (currentPos, currentFaces) p).
  destruct (rolled (currentPos, currentFaces) p) as [pos' faces'] eqn:Hr.
  apply goalAt_cell in Hgoal as (row & c & Hrow & Hc & Hblack & _).
  cbn in Hrow, Hc, Hin. unfold setTile. rewrite Hrow, Hc.
  apply index_Some in Hrow as [? Hrow]. apply index_Some in Hc as [? Hc].
  apply IH; [by rewrite length_insert | done |].
  pose proof (nonBlack_insert gridCopy _ row _ c Hrow Hc Hblack). lia.
Qed.

(** On a board of five rows the simulation always produces its two
    figures. *)
Lemma simulateAiStats_returns g :
  length g = Z.to_nat GRID_SIZE → ∃ stats, simulateAiStats g = Ret stats.
Proof.
  intros Hlen. unfold simulateAiStats. rewrite list_fmap_id.
  destruct (clearLoop_returns (S (length (concat g))) g START_POS
              INITIAL_CUBE_FACES 0 Hlen) as [n ->].
  - unfold inGrid, START_POS, GRID_SIZE. cbn. lia.
  - pose proof (nonBlack_bound g). lia.
  - by eexists.
Qed.

(** ** The roll transition *)

Lemma follow_moveTo s dir :
  follow s dir = (moveTo s.1 dir, rotateOrientation s.2 dir).
Proof. destruct s as [[px py] o]. by destruct dir. Qed.

Lemma outside_spec (cx cy : Z) :
  (cx <? 0) || (cx >=? GRID_SIZE) || (cy <? 0) || (cy >=? GRID_SIZE) = false
  ↔ inGrid (cx, cy).
Proof.
  unfold inGrid, GRID_SIZE. cbn. rewrite !orb_false_iff, !Z.ltb_ge, !Z.geb_leb, !Z.leb_gt.
  lia.
Qed.

Lemma squareGrid_cell g pos :
  squareGrid g → inGrid pos →
  ∃ row c, index g pos.2 = Some row ∧ index row pos.1 = Some c.
Proof.
  intros [Hlen Hrows] [Hx Hy]. unfold index, GRID_SIZE in *.
  rewrite !decide_True by lia.
  destruct (lookup_lt_is_Some_2 g (Z.to_nat pos.2)) as [row Hrow]; [lia |].
  rewrite Forall_forall in Hrows.
  pose proof (Hrows row (list_elem_of_lookup_2 _ _ _ Hrow)) as Hr.
  destruct (lookup_lt_is_Some_2 row (Z.to_nat pos.1)) as [c Hc]; [lia |].
  exists row, c. rewrite Hrow. split; [done |]. by rewrite decide_True by lia.
Qed.

Lemma blacken_cell g pos :
  (∃ row c, index g pos.2 = Some row ∧ index row pos.1 = Some c) →
  cellAt (blacken g pos.1 pos.2) pos = Some BLACK.
Proof.
  intros (row & c & [Hy Hrow]%index_Some & [Hx Hc]%index_Some).
  unfold cellAt, blacken, index. rewrite !decide_True by done.
  rewrite list_lookup_imap, Hrow. cbn.
  rewrite decide_True by done. rewrite list_lookup_imap, Hc. cbn.
  rewrite !bool_decide_eq_true_2 by lia. done.
Qed.

(** A roll that stays on the board, asked for while the game is on and no
    roll is in flight. *)
Lemma rollOnce_inGrid a dir :
  isRolling a = false → status (gameState a) = playing →
  squareGrid (grid (gameState a)) →
  length (initialGrid (gameState a)) = Z.to_nat GRID_SIZE →
  inGrid (moveTo (cubePosition (gameState a)) dir) →
  ∃ a', rollOnce dir a = Ret a' ∧ isRolling a' = false
    ∧ initialGrid (gameState a') = initialGrid (gameState a)
    ∧ cubePosition (gameState a') = moveTo (cubePosition (gameState a)) dir
    ∧ cubeFaces (gameState a') = rotateOrientation (cubeFaces (gameState a)) dir
    ∧ moves (gameState a') = S (moves (gameState a))
    ∧ if goalAt (grid (gameState a))
           (moveTo (cubePosition (gameState a)) dir,
            rotateOrientation (cubeFaces (gameState a)) dir)
      then grid (gameState a')
             = blacken (grid (gameState a))
                 (moveTo (cubePosition (gameState a)) dir).1
                 (moveTo (cubePosition (gameState a)) dir).2
           ∧ matchedCount (gameState a') = S (matchedCount (gameState a))
           ∧ status (gameState a') ≠ lost
      else grid (gameState a') = grid (gameState a)
           ∧ matchedCount (gameState a') = matchedCount (gameState a)
           ∧ (matchedCount (gameState a) ≠ 25%nat →
              status (gameState a') = playing).
Proof.
  destruct a as [[ig gr [px py] fc mv mc st hs sc sm] ro rd ai mq stored].
  cbn. intros -> -> Hsq Hig Hin.
  destruct (simulateAiStats_returns ig Hig) as [stats Hstats].
  unfold rollOnce, handleRoll, completeRoll, goalAt.
  destruct dir; cbn [rollDirection gameState cubePosition cubeFaces isRolling
    status orb bool_decide moveTo fst snd] in *;
  match type of Hin with inGrid (?cx, ?cy) =>
    rewrite (bool_decide_eq_false_2 (playing ≠ playing)) by tauto;
    cbn [orb rollDirection gameState cubePosition cubeFaces];
    rewrite (proj2 (outside_spec cx cy) Hin);
    destruct (squareGrid_cell gr (cx, cy) Hsq Hin) as (row & c & Hrow & Hc);
    cbn [fst snd] in Hrow, Hc; cbn [grid]; rewrite Hrow;
    cbn [initialGrid moves matchedCount status highScore aiComparisonScore
         aiComparisonMoves];
    match goal with
    | |- context [bool_decide (index row cx = Some ?b)] =>
        rewrite (bool_decide_ext (index row cx = Some b) (Some b = index row cx))
          by (split; congruence)
    end;
    destruct (_ && _ && _);
    (case_bool_decide as Hwon;
     [ rewrite Hstats | ]; eexists; (split; [reflexivity |]); cbn;
     repeat split; try done; try lia;
     try (intros Hne; exfalso; unfold GRID_SIZE in Hwon; lia))
  end.
Qed.

(** ** Replaying a path of the solver *)

Lemma rollAll_app p q a :
  rollAll (p ++ q) a = bind (rollAll p a) (rollAll q).
Proof.
  revert a. induction p as [| dir p IH]; intros a; [done |].
  cbn. destruct (rollOnce dir a); cbn; [apply IH | done | done].
Qed.

Lemma rolled_cons s dir p : rolled s (dir :: p) = rolled (follow s dir) p.
Proof. done. Qed.

(** Rolls over cells that do not match leave board and counter alone. *)
Lemma rollAll_quiet p a :
  readyToRoll a → staysInGrid (cubeOf a) p →
  (∀ p1 p2, p = p1 ++ p2 → p1 ≠ [] →
     goalAt (grid (gameState a)) (rolled (cubeOf a) p1) = false) →
  ∃ a', rollAll p a = Ret a' ∧ readyToRoll a'
    ∧ cubeOf a' = rolled (cubeOf a) p
    ∧ grid (gameState a') = grid (gameState a)
    ∧ matchedCount (gameState a') = matchedCount (gameState a)
    ∧ moves (gameState a') = (moves (gameState a) + length p)%nat.
Proof.
  revert a. induction p as [| dir p IH]; intros a Hready Hstay Hquiet.
  { exists a. cbn. repeat split; try done; try apply Hready; lia. }
  destruct Hstay as [Hin Hstay]. rewrite follow_moveTo in Hin, Hstay.
  destruct Hready as [Hidle Hplay Hopen Hgrid Hinit Hpos].
  destruct (rollOnce_inGrid a dir Hidle Hplay Hgrid (proj1 Hinit) Hin)
    as (a1 & Hroll & Hidle1 & Hinit1 & Hpos1 & Hfaces1 & Hmoves1 & Hcase).
  pose proof (Hquiet [dir] p eq_refl ltac:(done)) as Hfail.
  change (rolled (cubeOf a) [dir]) with (follow (cubeOf a) dir) in Hfail.
  rewrite follow_moveTo in Hfail. unfold cubeOf in Hfail.
  cbn [fst snd] in Hfail. rewrite Hfail in Hcase. destruct Hcase as (Hgrid1 & Hcount1 & Hstatus1).
  assert (Hcube : cubeOf a1 = (moveTo (cubeOf a).1 dir,
                               rotateOrientation (cubeOf a).2 dir)).
  { unfold cubeOf. by rewrite Hpos1, Hfaces1. }
  destruct (IH a1) as (a' & Hrest & Hready' & Hcube' & Hgrid' & Hcount' & Hmoves').
  - split; try done; try congruence.
    + by apply Hstatus1.
    + by rewrite Hpos1.
  - by rewrite Hcube.
  - intros p1 p2 Hp Hne. rewrite Hgrid1, Hcube, <- follow_moveTo.
    rewrite <- rolled_cons. apply (Hquiet (dir :: p1) p2); [by rewrite Hp | done].
  - exists a'. cbn. rewrite Hroll. cbn. split; [done |]. split; [done |].
    rewrite Hcube', Hcube, <- follow_moveTo, Hgrid', Hcount', Hmoves', Hmoves1.
    repeat split; try done. cbn. lia.
Qed.

(** ** Scoring *)

Lemma floorPercent_div n :
  (0 < n)%nat → floorPercent n = 2500 `div` Z.of_nat n.
Proof.
  intros Hn. unfold floorPercent. destruct n as [| n]; [lia |].
  rewrite Nat2Z.inj_succ, <- Zpos_P_of_succ_nat.
  unfold Qfloor, Qdiv, Qmult, Qinv, inject_Z. cbn -[Z.div Pos.mul Z.mul].
  by rewrite Pos.mul_1_r.
Qed.

(** ** Board generator *)


Lemma index_in_range {A} (a : list A) (i : Z) :
  0 ≤ i < Z.of_nat (length a) → is_Some (index a i).
Proof.
  intros Hi. unfold index. rewrite decide_True by lia.
  apply lookup_lt_is_Some_2. lia.
Qed.





Lemma initial_distinct : distinctFaces INITIAL_CUBE_FACES.
Proof.
  apply (bool_decide_unpack (distinctFaces INITIAL_CUBE_FACES)).
  vm_compute. exact I.
Qed.

(** ** Main results *)

(** C6.  Four rolls in one direction bring every orientation back to
    itself; a roll up followed by a roll down, and a roll left followed by a
    roll right, change nothing. *)
Theorem rotateOrientation_cycles (o : CubeOrientation) :
  (∀ dir,
     rotateOrientation
       (rotateOrientation (rotateOrientation (rotateOrientation o dir) dir)
          dir) dir = o)
  ∧ rotateOrientation (rotateOrientation o Up) Down = o
  ∧ rotateOrientation (rotateOrientation o Left) Right = o.
Proof.
  destruct o as [a b c d e f].
  split; [intros dir; by destruct dir | by split].
Qed.

(** C5.  Two orientations reached from [INITIAL_CUBE_FACES] by rolls that
    agree on top and front are equal, so [getOrientationKey] tells any two
    different ones apart. *)
Theorem reachable_key_determines (o1 o2 : CubeOrientation) :
  reachable INITIAL_CUBE_FACES o1 → reachable INITIAL_CUBE_FACES o2 →
  (top o1 = top o2 → front o1 = front o2 → o1 = o2)
  ∧ (o1 ≠ o2 → getOrientationKey o1 ≠ getOrientationKey o2).
Proof.
  intros H1%reachable_in_orbit H2%reachable_in_orbit.
  pose proof initial_distinct as Hd.
  split.
  - by apply (orbit_top_front_inj INITIAL_CUBE_FACES).
  - intros Hne [Ht Hf]%getOrientationKey_inj. apply Hne.
    by apply (orbit_top_front_inj INITIAL_CUBE_FACES).
Qed.

Lemma reachable_key_determines_witness :
  (top (rotateOrientation INITIAL_CUBE_FACES Up)
   = top (rotateOrientation (rotateOrientation INITIAL_CUBE_FACES Left) Up) →
   front (rotateOrientation INITIAL_CUBE_FACES Up)
   = front (rotateOrientation (rotateOrientation INITIAL_CUBE_FACES Left) Up) →
   rotateOrientation INITIAL_CUBE_FACES Up
   = rotateOrientation (rotateOrientation INITIAL_CUBE_FACES Left) Up)
  ∧ (rotateOrientation INITIAL_CUBE_FACES Up
     ≠ rotateOrientation (rotateOrientation INITIAL_CUBE_FACES Left) Up →
     getOrientationKey (rotateOrientation INITIAL_CUBE_FACES Up)
     ≠ getOrientationKey
         (rotateOrientation (rotateOrientation INITIAL_CUBE_FACES Left) Up)).
Proof.
  apply (reachable_key_determines
           (rotateOrientation INITIAL_CUBE_FACES Up)
           (rotateOrientation (rotateOrientation INITIAL_CUBE_FACES Left) Up)).
  - apply reach_roll, reach_start.
  - apply reach_roll, reach_roll, reach_start.
Defined.

(** C3.  When the roll in flight would take the cube off the board, the
    game is lost and board, position, faces, both counters and the other
    fields of the game are left as they were. *)
Theorem completeRoll_off_board (a : App) (dir : Direction) :
  rollDirection a = Some dir →
  status (gameState a) = playing →
  ¬ inGrid (moveTo (cubePosition (gameState a)) dir) →
  ∃ a', completeRoll a = Ret a'
    ∧ status (gameState a') = lost
    ∧ grid (gameState a') = grid (gameState a)
    ∧ cubePosition (gameState a') = cubePosition (gameState a)
    ∧ cubeFaces (gameState a') = cubeFaces (gameState a)
    ∧ moves (gameState a') = moves (gameState a)
    ∧ matchedCount (gameState a') = matchedCount (gameState a)
    ∧ initialGrid (gameState a') = initialGrid (gameState a)
    ∧ highScore (gameState a') = highScore (gameState a)
    ∧ aiComparisonScore (gameState a') = aiComparisonScore (gameState a)
    ∧ aiComparisonMoves (gameState a') = aiComparisonMoves (gameState a).
Proof.
  destruct a as [[ig gr [px py] fc mv mc st hs sc sm] ro rd ai mq stored].
  cbn. intros -> -> Hout. unfold completeRoll.
  destruct dir; cbn [rollDirection gameState cubePosition moveTo fst snd] in *;
    match type of Hout with ¬ inGrid (?cx, ?cy) =>
      pose proof (outside_spec cx cy) as Hspec;
      destruct ((cx <? 0) || (cx >=? GRID_SIZE) || (cy <? 0) || (cy >=? GRID_SIZE));
      [ eexists; split; [reflexivity | by cbn] | exfalso; tauto ]
    end.
Qed.

Lemma completeRoll_off_board_witness :
  ∃ a', completeRoll atLeftEdge = Ret a'
    ∧ status (gameState a') = lost
    ∧ grid (gameState a') = grid (gameState atLeftEdge)
    ∧ cubePosition (gameState a') = cubePosition (gameState atLeftEdge)
    ∧ cubeFaces (gameState a') = cubeFaces (gameState atLeftEdge)
    ∧ moves (gameState a') = moves (gameState atLeftEdge)
    ∧ matchedCount (gameState a') = matchedCount (gameState atLeftEdge)
    ∧ initialGrid (gameState a') = initialGrid (gameState atLeftEdge)
    ∧ highScore (gameState a') = highScore (gameState atLeftEdge)
    ∧ aiComparisonScore (gameState a')
      = aiComparisonScore (gameState atLeftEdge)
    ∧ aiComparisonMoves (gameState a')
      = aiComparisonMoves (gameState atLeftEdge).
Proof.
  apply (completeRoll_off_board atLeftEdge Left).
  - reflexivity.
  - reflexivity.
  - unfold inGrid. cbn. lia.
Defined.

(** C7.  In a game that is won or lost [handleRoll] returns the state it
    was given, whatever the direction; with no roll in flight the roll
    that follows changes nothing either. *)
Theorem handleRoll_terminal (a : App) (dir : Direction) :
  status (gameState a) = won ∨ status (gameState a) = lost →
  handleRoll dir a = a
  ∧ (rollDirection a = None → rollOnce dir a = Ret a).
Proof.
  intros Hst. assert (Hh : handleRoll dir a = a).
  { unfold handleRoll. rewrite (bool_decide_eq_true_2 (status (gameState a) ≠ playing)).
    - by rewrite orb_true_r.
    - destruct Hst as [-> | ->]; discriminate. }
  split; [done |]. intros Hnone. unfold rollOnce, completeRoll.
  by rewrite Hh, Hnone.
Qed.

Lemma handleRoll_terminal_witness :
  handleRoll Up fallen = fallen
  ∧ (rollDirection fallen = None → rollOnce Up fallen = Ret fallen).
Proof. apply (handleRoll_terminal fallen Up). right. reflexivity. Defined.

(** C4, counterexample.  After one roll to the right from (2,2) with the
    initial faces the cube is at (3,2), but its bottom face is YELLOW, the
    colour that was on the right, and not the GREEN that was on the left. *)
Lemma roll_right_bottom_is_not_old_left :
  rollOnce Right (newGame redBoard None)
  = Ret (mkApp
           (mkGame redBoard redBoard (3, 2)
              (rotateOrientation INITIAL_CUBE_FACES Right) 1 1 playing 0
              None None)
           false None false [] None)
  ∧ bottom (rotateOrientation INITIAL_CUBE_FACES Right) = YELLOW
  ∧ left INITIAL_CUBE_FACES = GREEN
  ∧ bottom (rotateOrientation INITIAL_CUBE_FACES Right)
    ≠ left INITIAL_CUBE_FACES.
Proof. repeat split. discriminate. Qed.

(** C4 (as amended).  From (2,2) with the initial faces, a roll to the
    right takes the cube to (3,2); the new bottom face is the old right
    face, and the old left face is on top. *)
Theorem roll_right_from_start (a : App) :
  isRolling a = false → status (gameState a) = playing →
  squareGrid (grid (gameState a)) → squareGrid (initialGrid (gameState a)) →
  cubePosition (gameState a) = (2, 2) →
  cubeFaces (gameState a) = INITIAL_CUBE_FACES →
  ∃ a', rollOnce Right a = Ret a'
    ∧ cubePosition (gameState a') = (3, 2)
    ∧ bottom (cubeFaces (gameState a')) = right INITIAL_CUBE_FACES
    ∧ top (cubeFaces (gameState a')) = left INITIAL_CUBE_FACES.
Proof.
  intros Hidle Hplay Hgrid [Hinit _] Hpos Hfaces.
  destruct (rollOnce_inGrid a Right Hidle Hplay Hgrid Hinit)
    as (a' & Hroll & _ & _ & Hpos' & Hfaces' & _).
  { rewrite Hpos. unfold inGrid, GRID_SIZE. cbn. lia. }
  exists a'. rewrite Hpos', Hfaces', Hpos, Hfaces. by cbn.
Qed.

Lemma roll_right_from_start_witness :
  ∃ a', rollOnce Right (newGame redBoard None) = Ret a'
    ∧ cubePosition (gameState a') = (3, 2)
    ∧ bottom (cubeFaces (gameState a')) = right INITIAL_CUBE_FACES
    ∧ top (cubeFaces (gameState a')) = left INITIAL_CUBE_FACES.
Proof.
  apply (roll_right_from_start (newGame redBoard None)).
  - reflexivity.
  - reflexivity.
  - apply (bool_decide_unpack (squareGrid redBoard)). vm_compute. exact I.
  - apply (bool_decide_unpack (squareGrid redBoard)). vm_compute. exact I.
  - reflexivity.
  - reflexivity.
Defined.




(** C1, counterexample.  On a board of pink cells the cube, pink face
    down, already stands on a cell that passes the goal test: the search
    returns the empty path, and replaying it leaves the cell pink and the
    counter at 1. *)
Lemma findPath_empty_path_marks_nothing :
  squareGrid pinkBoard
  ∧ inGrid (cubePosition (gameState (newGame pinkBoard None)))
  ∧ findPath pinkBoard 2 2 INITIAL_CUBE_FACES = Ret (Some [])
  ∧ rollAll [] (newGame pinkBoard None) = Ret (newGame pinkBoard None)
  ∧ cellAt (grid (gameState (newGame pinkBoard None))) (2, 2) = Some PINK
  ∧ matchedCount (gameState (newGame pinkBoard None)) = 1%nat.
Proof.
  split; [apply (bool_decide_unpack (squareGrid pinkBoard)); vm_compute; exact I |].
  split; [unfold inGrid, GRID_SIZE; cbn; lia |].
  split; [vm_compute; reflexivity |].
  repeat split.
Qed.

(** C1 (as amended).  In a game in play on a 5 x 5 board (matched-cell
    counter not at 25, no roll in flight), let [findPath] return a path that is
    not empty for the current board and cube.  Replayed roll by roll, the
    path leaves the game playing after every roll before the last; the
    last roll does not lose, ends on the cell that passed the goal test,
    turns it BLACK and adds one to the matched-cell counter. *)
Theorem findPath_replay (a : App) (p : list Direction) :
  readyToRoll a →
  findPath (grid (gameState a)) (cubePosition (gameState a)).1
    (cubePosition (gameState a)).2 (cubeFaces (gameState a)) = Ret (Some p) →
  p ≠ [] →
  (∀ p1 p2, p = p1 ++ p2 → p2 ≠ [] →
     ∃ a1, rollAll p1 a = Ret a1 ∧ status (gameState a1) = playing)
  ∧ ∃ a', rollAll p a = Ret a'
      ∧ status (gameState a') ≠ lost
      ∧ cubeOf a' = rolled (cubeOf a) p
      ∧ goalAt (grid (gameState a)) (cubeOf a') = true
      ∧ cellAt (grid (gameState a')) (cubePosition (gameState a'))
        = Some BLACK
      ∧ matchedCount (gameState a') = S (matchedCount (gameState a)).
Proof.
  intros Hready Hres Hne.
  destruct (findPath_sound (grid (gameState a)) (cubeOf a) p
              (ready_pos a Hready) Hres)
    as (Hstay & Hend & _ & Hgoal & Hquiet).
  assert (Hpre : ∀ p1 p2, p = p1 ++ p2 → p2 ≠ [] →
            ∃ a1, rollAll p1 a = Ret a1 ∧ readyToRoll a1
              ∧ cubeOf a1 = rolled (cubeOf a) p1
              ∧ grid (gameState a1) = grid (gameState a)
              ∧ matchedCount (gameState a1) = matchedCount (gameState a)).
  { intros p1 p2 Hp Hp2.
    destruct (rollAll_quiet p1 a Hready) as (a1 & ? & ? & ? & ? & ? & ?).
    - rewrite Hp in Hstay. by apply staysInGrid_app in Hstay as [? _].
    - intros q1 q2 Hq _. apply (Hquiet q1 (q2 ++ p2)).
      + by rewrite Hp, Hq, app_assoc.
      + intros [_ ?]%app_eq_nil. done.
    - by exists a1. }
  split.
  { intros p1 p2 Hp Hp2. destruct (Hpre p1 p2 Hp Hp2) as (a1 & ? & Hr & _).
    exists a1. split; [done | apply Hr]. }
  destruct p as [| dir p _] using rev_ind; [done |].
  destruct (Hpre p [dir] eq_refl ltac:(done))
    as (a1 & Hroll1 & [Hidle Hplay _ Hgrid [Hinit _] _] & Hcube1 & Hgrid1 & Hcount1).
  rewrite rolled_snoc, <- Hcube1, follow_moveTo in Hend, Hgoal.
  rewrite <- Hgrid1 in Hgoal. unfold cubeOf in Hend, Hgoal. cbn [fst snd] in Hend, Hgoal.
  destruct (rollOnce_inGrid a1 dir Hidle Hplay Hgrid Hinit Hend)
    as (a' & Hroll & _ & _ & Hpos' & Hfaces' & _ & Hcase).
  rewrite Hgoal in Hcase. destruct Hcase as (Hgrid' & Hcount' & Hstatus').
  exists a'. rewrite rollAll_app, Hroll1. cbn. rewrite Hroll. cbn.
  split; [done |]. split; [done |].
  split; [by rewrite rolled_snoc, <- Hcube1, follow_moveTo; unfold cubeOf; rewrite Hpos', Hfaces' |].
  split; [unfold cubeOf; by rewrite Hpos', Hfaces', <- Hgrid1 |].
  split; [| by rewrite Hcount', Hcount1].
  rewrite Hgrid', Hpos'. apply blacken_cell. by apply squareGrid_cell.
Qed.

Lemma findPath_replay_witness :
  (∀ p1 p2, [Up] = p1 ++ p2 → p2 ≠ [] →
     ∃ a1, rollAll p1 (newGame redBoard None) = Ret a1
           ∧ status (gameState a1) = playing)
  ∧ ∃ a', rollAll [Up] (newGame redBoard None) = Ret a'
      ∧ status (gameState a') ≠ lost
      ∧ cubeOf a' = rolled (cubeOf (newGame redBoard None)) [Up]
      ∧ goalAt (grid (gameState (newGame redBoard None))) (cubeOf a') = true
      ∧ cellAt (grid (gameState a')) (cubePosition (gameState a'))
        = Some BLACK
      ∧ matchedCount (gameState a')
        = S (matchedCount (gameState (newGame redBoard None))).
Proof.
  apply (findPath_replay (newGame redBoard None) [Up]).
  - split.
    + reflexivity.
    + reflexivity.
    + cbn. lia.
    + apply (bool_decide_unpack (squareGrid redBoard)). vm_compute. exact I.
    + apply (bool_decide_unpack (squareGrid redBoard)). vm_compute. exact I.
    + unfold inGrid, GRID_SIZE. cbn. lia.
  - vm_compute. reflexivity.
  - discriminate.
Defined.

(** C8, counterexample.  With no move made the panel shows 2500, not 0:
    [gameState.moves || 1] divides by one. *)
Lemma userEfficiency_before_first_move :
  userEfficiency 0 = 2500 ∧ userEfficiency 0 ≠ 0.
Proof. split; [reflexivity | discriminate]. Qed.

(** C8 (as amended).  For a positive move count both the reference score of
    [simulateAiStats] and the efficiency shown in the panel are
    [floor((25 / moveCount) * 100)], the integer quotient of 2500 by the
    count; for a count of zero the reference score is 0 and the panel
    shows 2500. *)
Theorem efficiency_percent (moveCount : nat) :
  efficiencyOf moveCount
  = (if decide (moveCount = 0%nat) then 0
     else 2500 `div` Z.of_nat moveCount)
  ∧ userEfficiency moveCount
    = (if decide (moveCount = 0%nat) then 2500
       else 2500 `div` Z.of_nat moveCount)
  ∧ (if decide (moveCount = 0%nat) then True
     else efficiencyOf moveCount = floorPercent moveCount
          ∧ userEfficiency moveCount = floorPercent moveCount).
Proof.
  unfold efficiencyOf, userEfficiency.
  destruct (decide (moveCount = 0%nat)) as [-> | Hne]; [done |].
  rewrite bool_decide_eq_false_2 by done.
  rewrite <- floorPercent_div by lia.
  destruct (Nat.ltb_spec 0 moveCount); [done | lia].
Qed.



(** C10.  The search written out in [runAiStep] and [findPath] give the
    same answer on every grid, start cell and start orientation: the same
    path, no path, or the same failure; the answer always comes, and a path
    has at most 16 rolls. *)
Theorem searches_agree (g : Grid) (startX startY : Z)
    (startFaces : CubeOrientation) :
  RunAiStep.bestPathOf g startX startY startFaces
  = findPath g startX startY startFaces
  ∧ match findPath g startX startY startFaces with
    | Ret (Some p) => (length p ≤ 16)%nat
    | Ret None => True
    | Throw => True
    | OutOfBudget => False
    end.
Proof.
  split.
  - unfold RunAiStep.bestPathOf. rewrite searchLoop_same.
    symmetry. apply findPath_unfold.
  - pose proof (findPath_terminates g startX startY startFaces) as Hterm.
    destruct (findPath g startX startY startFaces) as [[p |] | |] eqn:Hres;
      [| done | done | done].
    rewrite findPath_unfold in Hres.
    apply searchLoop_length in Hres; [done |].
    constructor; [cbn; lia | constructor].
Qed.

(** ** Further properties of the orientation model *)

Lemma in_orbit_reachable o0 o : o ∈ orbit o0 → reachable o0 o.
Proof.
  intros (w & -> & _)%list_elem_of_fmap.
  induction w as [| dir w IH] using rev_ind; [constructor |].
  rewrite foldl_app. cbn. by constructor.
Qed.

Lemma orbit_NoDup o0 : distinctFaces o0 → NoDup (orbit o0).
Proof.
  destruct o0 as [a b c d e f]. intros Hd%distinctFaces_neq.
  destruct Hd as (?&?&?&?&?&?&?&?&?&?&?&?&?&?&?).
  unfold orbit, rollWords.
  cbv [fmap list_fmap foldl rotateOrientation set_top set_bottom set_front
       set_back set_left set_right top bottom front back left right].
  repeat (apply NoDup_cons; split;
    [ rewrite ?not_elem_of_cons; repeat split;
        try (apply not_elem_of_nil); intros [=]; congruence | ]).
  apply NoDup_nil_2.
Qed.

(** X1.  A roll permutes the six colours of the cube and keeps opposite
    faces opposite; the faces of the rolled cube are pairwise different
    exactly when those of the cube were. *)
Theorem rotateOrientation_permutes (o : CubeOrientation) (dir : Direction) :
  faceList (rotateOrientation o dir) ≡ₚ faceList o
  ∧ (∀ c1 c2, opposite (rotateOrientation o dir) c1 c2 ↔ opposite o c1 c2)
  ∧ (distinctFaces (rotateOrientation o dir) ↔ distinctFaces o).
Proof.
  assert (Hperm : faceList (rotateOrientation o dir) ≡ₚ faceList o).
  { destruct o as [a b c d e f]. destruct dir; cbn; solve_Permutation. }
  split; [done |]. split.
  - intros c1 c2. destruct o as [a b c d e f]. unfold opposite.
    destruct dir; cbn; tauto.
  - unfold distinctFaces. change (NoDup (faceList (rotateOrientation o dir))
                                   ↔ NoDup (faceList o)).
    by rewrite Hperm.
Qed.

(** X2.  From a cube with six different colours the rolls reach exactly the
    24 orientations of [orbit], all different from each other. *)
Theorem reachable_orientations (o0 o : CubeOrientation) :
  distinctFaces o0 →
  (reachable o0 o ↔ o ∈ orbit o0)
  ∧ NoDup (orbit o0) ∧ length (orbit o0) = 24%nat.
Proof.
  intros Hd. split; [| split; [by apply orbit_NoDup | done]].
  split; [apply reachable_in_orbit | apply in_orbit_reachable].
Qed.

Lemma reachable_orientations_witness :
  (reachable INITIAL_CUBE_FACES (rotateOrientation INITIAL_CUBE_FACES Left)
   ↔ rotateOrientation INITIAL_CUBE_FACES Left ∈ orbit INITIAL_CUBE_FACES)
  ∧ NoDup (orbit INITIAL_CUBE_FACES)
  ∧ length (orbit INITIAL_CUBE_FACES) = 24%nat.
Proof.
  apply (reachable_orientations INITIAL_CUBE_FACES
           (rotateOrientation INITIAL_CUBE_FACES Left)).
  apply (bool_decide_unpack (distinctFaces INITIAL_CUBE_FACES)).
  vm_compute. exact I.
Defined.

(** X3.  A roll followed by the roll back restores position and
    orientation of the cube, in either order of the two directions. *)
Theorem follow_backward (s : CubeState) (dir : Direction) :
  follow (follow s dir) (backward dir) = s
  ∧ follow (follow s (backward dir)) dir = s
  ∧ backward (backward dir) = dir.
Proof.
  destruct s as [[px py] [a b c d e f]].
  destruct dir; cbn; repeat split; repeat f_equal; lia.
Qed.

(** ** Further properties of the search *)

Lemma searchLoop_rows g s0 budget queue visited :
  (Z.to_nat GRID_SIZE ≤ length g)%nat →
  Forall (tracked g s0) queue →
  searchLoop budget g queue visited ≠ Throw.
Proof.
  intros Hg. revert queue visited.
  induction budget as [| budget IH]; intros queue visited Hq; [done |].
  cbn [searchLoop]. destruct queue as [| curr queue]; [done |].
  apply Forall_cons in Hq as [Hcurr Hq].
  destruct (index g (y curr)) as [row |] eqn:Hrow.
  - rewrite <- (goalAt_node g curr row Hrow).
    destruct (goalAt g (stateOf curr)) eqn:Hgoal; [done |].
    fold (tooLong (path curr)).
    destruct (tooLong (path curr)) eqn:Hlong; [by apply IH |].
    destruct (foldl _ _ _) as [queue' visited'] eqn:Hf.
    apply expand_spec in Hf as (new & -> & _ & Hnew & _).
    apply IH. apply Forall_app. split; [done |].
    eapply Forall_impl; [exact Hnew |]. cbn.
    intros n (dir & _ & -> & Hin & _). by apply tracked_child.
  - exfalso. destruct Hcurr as (_ & _ & [_ Hy] & _). cbn in Hy.
    unfold index in Hrow. case_decide; [| lia].
    apply lookup_ge_None in Hrow. unfold GRID_SIZE in *. lia.
Qed.

Lemma findPath_rows g s0 :
  inGrid s0.1 → (Z.to_nat GRID_SIZE ≤ length g)%nat →
  findPath g s0.1.1 s0.1.2 s0.2 ≠ Throw.
Proof.
  intros Hin Hg. rewrite findPath_unfold.
  apply (searchLoop_rows g s0); [done |].
  constructor; [by apply tracked_start | constructor].
Qed.

Section Exhaustion.
Variable g : Grid.
Variable s0 : CubeState.
Hypothesis start_inGrid : inGrid s0.1.
Hypothesis start_distinct : distinctFaces s0.2.

(** With the queue empty, every state within 16 rolls has been taken from
    the queue. *)
Lemma levelInv_exhausted k past visited q :
  levelInv g s0 k [] [] past visited →
  (length q ≤ 16)%nat → staysInGrid s0 q →
  ∃ n, n ∈ past ∧ stateOf n = rolled s0 q.
Proof.
  intros [Htr _ _ Hlev _ Hexp Hvis Hcomp].
  cbn [app] in Htr, Hvis, Hcomp.
  destruct (decide (16 ≤ k)%nat) as [Hk | Hk].
  { intros Hq Hstay. destruct (Hcomp q ltac:(lia) Hstay) as (n & ? & ? & _).
    by exists n. }
  rewrite Forall_forall in Htr, Hlev, Hexp.
  induction q as [| dir q IH] using rev_ind; intros Hq Hstay.
  { destruct (Hcomp [] ltac:(cbn; lia) Hstay) as (n & ? & ? & _). by exists n. }
  rewrite length_app in Hq. cbn in Hq.
  apply staysInGrid_app in Hstay as [Hstay [Hlast _]].
  destruct (IH ltac:(lia) Hstay) as (n & Hn & Hst).
  assert (Hchild : stateOf (child n dir) = rolled s0 (q ++ [dir])).
  { by rewrite stateOf_child, rolled_snoc, Hst. }
  assert (Hin : inGrid (x (child n dir), y (child n dir))).
  { change (inGrid (stateOf (child n dir)).1). by rewrite stateOf_child, Hst. }
  pose proof (Hlev n Hn) as Hlen.
  pose proof (Hexp n Hn ltac:(lia) dir Hin) as Hkey.
  destruct (Hvis _ Hkey) as (n' & Hn' & Hkey').
  exists n'. split; [done |].
  destruct (Htr n' Hn') as (Hroll' & _ & Hin' & _).
  rewrite <- Hchild, <- Hroll', Hchild.
  apply stateKey_inj_rolled; [done | | |].
  - by rewrite Hroll'.
  - by rewrite <- Hchild.
  - by rewrite Hroll', Hkey', Hchild.
Qed.

Lemma searchLoop_exhaustive budget k A B past visited q :
  levelInv g s0 k A B past visited →
  searchLoop budget g (A ++ B) visited = Ret None →
  (length q ≤ 16)%nat → staysInGrid s0 q →
  goalAt g (rolled s0 q) = false.
Proof.
  intros Hinv Hres Hq Hstay.
  revert k A B past visited Hinv Hres.
  induction budget as [| budget IH]; intros k A B past visited Hinv; [done |].
  destruct (decide (A ++ B = [])) as [Hnil | Hne].
  { apply app_eq_nil in Hnil as [-> ->]. intros _.
    destruct (levelInv_exhausted k past visited q Hinv Hq Hstay) as (n & Hn & <-).
    destruct Hinv as [_ _ _ _ Hfail _ _ _].
    rewrite Forall_forall in Hfail. by apply Hfail. }
  assert (∃ k' curr A' B', A ++ B = (curr :: A') ++ B'
            ∧ levelInv g s0 k' (curr :: A') B' past visited) as Hcase.
  { destruct A as [| curr A].
    - destruct B as [| curr B]; [done |].
      exists (S k), curr, B, []. rewrite app_nil_r. split; [done |].
      by apply levelInv_next.
    - by exists k, curr, A, B. }
  destruct Hcase as (k' & curr & A' & B' & Heq & Hinv'). rewrite Heq.
  clear Hinv Heq Hne. cbn [searchLoop app].
  destruct (index g (y curr)) as [row |] eqn:Hrow; [| done].
  rewrite <- (goalAt_node g curr row Hrow).
  destruct (goalAt g (stateOf curr)) eqn:Hcurr; [done |].
  fold (tooLong (path curr)).
  destruct (tooLong (path curr)) eqn:Hlong.
  { apply (IH k' A' B' (curr :: past)). by apply levelInv_skip. }
  destruct (foldl _ _ _) as [queue' visited'] eqn:Hf.
  eapply levelInv_expand in Hf as (new & -> & Hinv''); [| done ..].
  by apply (IH k' A' (B' ++ new) (curr :: past)).
Qed.

Lemma findPath_none q :
  findPath g s0.1.1 s0.1.2 s0.2 = Ret None →
  (length q ≤ 16)%nat → staysInGrid s0 q →
  goalAt g (rolled s0 q) = false.
Proof.
  rewrite findPath_unfold. intros Hres.
  eapply (searchLoop_exhaustive searchBudget 0 [_] []); [| exact Hres].
  by apply levelInv_start.
Qed.
End Exhaustion.

Lemma searchLoop_hit budget g curr queue visited :
  goalAt g (stateOf curr) = true →
  searchLoop (S budget) g (curr :: queue) visited = Ret (Some (path curr)).
Proof.
  intros Hgoal. cbn [searchLoop].
  destruct (goalAt_cell _ _ Hgoal) as (row & c & Hrow & _).
  cbn in Hrow. rewrite Hrow. by rewrite <- (goalAt_node g curr row Hrow), Hgoal.
Qed.

Lemma searchLoop_missing_row budget g curr queue visited :
  index g (y curr) = None →
  searchLoop (S budget) g (curr :: queue) visited = Throw.
Proof. intros Hrow. cbn [searchLoop]. by rewrite Hrow. Qed.

(** *** The reference simulation on any grid *)

Lemma clearLoop_outcome budget gridCopy currentPos currentFaces totalMoves :
  inGrid currentPos → (nonBlack gridCopy < budget)%nat →
  match clearLoop budget gridCopy currentPos currentFaces totalMoves with
  | Ret n => (totalMoves ≤ n ≤ totalMoves + 16 * nonBlack gridCopy)%nat
  | Throw => (length gridCopy < Z.to_nat GRID_SIZE)%nat
  | OutOfBudget => False
  end.
Proof.
  revert gridCopy currentPos currentFaces totalMoves.
  induction budget as [| budget IH];
    intros gridCopy currentPos currentFaces totalMoves Hpos Hb; [lia |].
  cbn [clearLoop].
  pose proof (findPath_terminates gridCopy currentPos.1 currentPos.2 currentFaces) as Hterm.
  pose proof (findPath_rows gridCopy (currentPos, currentFaces) Hpos) as Hrows.
  cbn [fst snd] in Hrows.
  destruct (findPath gridCopy currentPos.1 currentPos.2 currentFaces)
    as [[p |] | |] eqn:Hf; [| lia | | done].
  2: { destruct (decide (Z.to_nat GRID_SIZE ≤ length gridCopy)%nat); [| lia].
       by exfalso; apply Hrows. }
  destruct (findPath_sound gridCopy (currentPos, currentFaces) p Hpos Hf)
    as (_ & Hin & Hlen & Hgoal & _).
  change (foldl follow (currentPos, currentFaces) p)
    with (rolled (currentPos, currentFaces) p).
  destruct (rolled (currentPos, currentFaces) p) as [pos' faces'] eqn:Hr.
  apply goalAt_cell in Hgoal as (row & c & Hrow & Hc & Hblack & _).
  cbn in Hrow, Hc, Hin. unfold setTile. rewrite Hrow, Hc.
  apply index_Some in Hrow as [? Hrow]. apply index_Some in Hc as [? Hc].
  pose proof (nonBlack_insert gridCopy _ row _ c Hrow Hc Hblack) as Hless.
  specialize (IH (<[Z.to_nat pos'.2 := <[Z.to_nat pos'.1 := BLACK]> row]> gridCopy)
                pos' faces' (totalMoves + length p)%nat Hin ltac:(lia)).
  destruct (clearLoop budget _ pos' faces' _) as [n | |];
    [lia | by rewrite length_insert in IH | done].
Qed.

Lemma simulateAiStats_cases g :
  match simulateAiStats g with
  | Ret stats =>
      stats.1 = efficiencyOf stats.2 ∧ (stats.2 ≤ 16 * nonBlack g)%nat
  | Throw => (length g < Z.to_nat GRID_SIZE)%nat
  | OutOfBudget => False
  end.
Proof.
  unfold simulateAiStats. rewrite list_fmap_id.
  pose proof (nonBlack_bound g).
  assert (Hstart : inGrid START_POS).
  { unfold inGrid, START_POS, GRID_SIZE. cbn. lia. }
  pose proof (clearLoop_outcome (S (length (concat g))) g START_POS
                INITIAL_CUBE_FACES 0 Hstart ltac:(lia)) as Hloop.
  destruct (clearLoop _ g START_POS INITIAL_CUBE_FACES 0) as [n | |];
    [| done | done].
  cbn. split; [done | lia].
Qed.

(** ** Further properties of the roll transition *)

Lemma completeRoll_outcome a dir a' :
  rollDirection a = Some dir → completeRoll a = Ret a' →
  rollOutcome a dir a'.
Proof.
  destruct a as [[ig gr [px py] fc mv mc st hs sc sm] ro rd ai mq stored].
  cbn. intros ->. unfold completeRoll, rollOutcome, goalAt.
  destruct dir;
    cbn [rollDirection gameState cubePosition cubeFaces isRolling isAiSolving
         aiMoveQueue cube_high_score status moveTo fst snd grid initialGrid
         moves matchedCount highScore aiComparisonScore aiComparisonMoves];
    match goal with
    | |- context [decide (inGrid (?cx, ?cy))] =>
        pose proof (outside_spec cx cy) as Hspec;
        destruct ((cx <? 0) || (cx >=? GRID_SIZE) || (cy <? 0) || (cy >=? GRID_SIZE));
        [ intros [= <-];
          cbn [rollDirection gameState cubePosition cubeFaces isRolling
               isAiSolving aiMoveQueue cube_high_score status fst snd grid
               initialGrid moves matchedCount highScore];
          rewrite decide_False
            by (intros Hin; apply Hspec in Hin; discriminate);
          done
        | rewrite decide_True by tauto;
          destruct (index gr cy) as [row |]; [| done];
          match goal with
          | |- context [bool_decide (index row cx = Some ?b)] =>
              rewrite (bool_decide_ext (index row cx = Some b) (Some b = index row cx))
                by (split; congruence)
          end;
          destruct (_ && _ && _);
          (case_bool_decide as Hwon;
           [ destruct (simulateAiStats ig) as [stats | |]; [| done | done] | ];
           intros [= <-];
           cbn [rollDirection gameState cubePosition cubeFaces isRolling
                isAiSolving aiMoveQueue cube_high_score status fst snd grid
                initialGrid moves matchedCount highScore];
           repeat (split; [done |]);
           destruct (decide _) as [Hd | Hd];
           try (exfalso; unfold GRID_SIZE in Hwon; lia);
           repeat split; try done; try lia; try (intros; exfalso; lia)) ]
    end.
Qed.

Lemma blacken_cellAt g cx cy pos :
  cellAt (blacken g cx cy) pos
  = (λ c, if decide (pos = (cx, cy)) then BLACK else c) <$> cellAt g pos.
Proof.
  destruct pos as [px py]. unfold cellAt, blacken, index. cbn [fst snd].
  destruct (decide (0 ≤ py)) as [Hy | Hy]; [| done].
  rewrite list_lookup_imap.
  destruct (g !! Z.to_nat py) as [row |]; [| done]. cbn.
  destruct (decide (0 ≤ px)) as [Hx | Hx]; [| done].
  rewrite list_lookup_imap.
  destruct (row !! Z.to_nat px) as [c |]; [| done]. cbn. f_equal.
  destruct (decide ((px, py) = (cx, cy))) as [[= -> ->] | Hne].
  - by rewrite !bool_decide_eq_true_2 by lia.
  - destruct (decide (Z.of_nat (Z.to_nat py) = cy)) as [Hy' | Hy'].
    + rewrite (bool_decide_eq_true_2 _ Hy').
      rewrite bool_decide_eq_false_2; [done |].
      intros Hx'. apply Hne. f_equal; lia.
    + by rewrite (bool_decide_eq_false_2 _ Hy').
Qed.

Lemma blacken_shape g cx cy :
  length <$> blacken g cx cy = length <$> g.
Proof.
  unfold blacken. apply list_eq. intros i.
  rewrite !list_lookup_fmap, list_lookup_imap.
  destruct (g !! i) as [row |]; [| done]. cbn. by rewrite length_imap.
Qed.

Lemma blacken_insert (g : Grid) cx cy row c :
  index g cy = Some row → index row cx = Some c →
  blacken g cx cy = <[Z.to_nat cy := <[Z.to_nat cx := BLACK]> row]> g.
Proof.
  intros [Hy Hrow]%index_Some [Hx Hc]%index_Some.
  unfold blacken. apply list_eq. intros i. rewrite list_lookup_imap.
  destruct (decide (i = Z.to_nat cy)) as [-> | Hi].
  - rewrite list_lookup_insert_eq by (by eapply lookup_lt_Some).
    rewrite Hrow. cbn. f_equal. apply list_eq. intros j.
    rewrite list_lookup_imap.
    destruct (decide (j = Z.to_nat cx)) as [-> | Hj].
    + rewrite list_lookup_insert_eq by (by eapply lookup_lt_Some).
      rewrite Hc. cbn. by rewrite !bool_decide_eq_true_2 by lia.
    + rewrite list_lookup_insert_ne by done.
      destruct (row !! j) as [c' |]; [| done]. cbn.
      rewrite (bool_decide_eq_false_2 (Z.of_nat j = cx)) by lia.
      by rewrite andb_false_r.
  - rewrite list_lookup_insert_ne by done.
    destruct (g !! i) as [row' |]; [| done]. cbn. f_equal.
    apply list_eq. intros j. rewrite list_lookup_imap.
    destruct (row' !! j) as [c' |]; [| done]. cbn.
    by rewrite (bool_decide_eq_false_2 (Z.of_nat i = cy)) by lia.
Qed.

Lemma openCells_insert (g : Grid) j row i c :
  g !! j = Some row → row !! i = Some c → c ≠ BLACK → c ≠ GRAY →
  S (openCells (<[j := <[i := BLACK]> row]> g)) = openCells g.
Proof.
  intros Hj Hi Hb Hg. unfold openCells.
  assert (Hrow : S (length (filter (λ c, c ≠ BLACK ∧ c ≠ GRAY)
                              (<[i := BLACK]> row)))
                 = length (filter (λ c, c ≠ BLACK ∧ c ≠ GRAY) row)).
  { rewrite <- (take_drop_middle row i c Hi) at 2.
    rewrite insert_take_drop by (by eapply lookup_lt_Some).
    rewrite !filter_app, !filter_cons, !length_app.
    destruct (decide (c ≠ BLACK ∧ c ≠ GRAY)); [| tauto].
    destruct (decide (BLACK ≠ BLACK ∧ BLACK ≠ GRAY)); [tauto |]. cbn. lia. }
  revert Hrow. generalize (<[i := BLACK]> row). intros row' Hrow.
  rewrite insert_take_drop by (by eapply lookup_lt_Some).
  rewrite <- (take_drop_middle g j row Hj) at 3.
  rewrite !concat_app, !concat_cons, !filter_app, !length_app. lia.
Qed.

Lemma goalAt_open g s :
  goalAt g s = true →
  ∃ row c, index g s.1.2 = Some row ∧ index row s.1.1 = Some c
           ∧ c ≠ BLACK ∧ c ≠ GRAY.
Proof.
  intros (row & c & ? & ? & ? & ? & _)%goalAt_cell. by exists row, c.
Qed.

Lemma goalAt_cellAt g s c :
  cellAt g s.1 = Some c → goalAt g s = true →
  c = bottom s.2 ∧ c ≠ BLACK ∧ c ≠ GRAY.
Proof.
  intros Hc (row & c' & Hrow & Hc' & ? & ? & ?)%goalAt_cell.
  unfold cellAt in Hc. rewrite Hrow in Hc. cbn in Hc.
  rewrite Hc' in Hc. by simplify_eq.
Qed.

(** What a committed roll does to the board and the matched counter. *)
Lemma rollOutcome_board a dir a' :
  rollOutcome a dir a' →
(matchedCount (gameState a') + openCells (grid (gameState a'))
   = matchedCount (gameState a) + openCells (grid (gameState a)))%nat
  ∧ length <$> grid (gameState a') = length <$> grid (gameState a)
  ∧ (inGrid (moveTo (cubePosition (gameState a)) dir) →
     goalAt (grid (gameState a')) (cubeOf a') = false)
  ∧ ∀ pos,
      cellAt (grid (gameState a')) pos = cellAt (grid (gameState a)) pos
      ∨ (pos = cubePosition (gameState a')
         ∧ cellAt (grid (gameState a')) pos = Some BLACK
         ∧ cellAt (grid (gameState a)) pos
           = Some (bottom (cubeFaces (gameState a')))).
Proof.
  unfold rollOutcome, cubeOf.
  intros (_ & _ & _ & _ & Hcase).
  destruct (decide (inGrid (moveTo (cubePosition (gameState a)) dir)))
    as [Hin | Hout].
  - destruct Hcase as (Hpos & Hfaces & _ & Hgrid & Hcount & _).
    rewrite Hgrid, Hcount, Hpos, Hfaces. clear Hgrid Hcount Hpos Hfaces.
    destruct (goalAt (grid (gameState a)) _) eqn:Hgoal.
    + destruct (goalAt_cell _ _ Hgoal) as (row & c & Hrow & Hc & Hb & Hg & Hbot).
      cbn [fst snd] in Hrow, Hc, Hbot.
      rewrite (blacken_insert _ _ _ row c Hrow Hc).
      pose proof Hrow as [_ Hrow']%index_Some.
      pose proof Hc as [_ Hc']%index_Some.
      pose proof (openCells_insert _ _ row _ c Hrow' Hc' Hb Hg) as Hopen.
      rewrite <- (blacken_insert _ _ _ row c Hrow Hc).
      rewrite <- (blacken_insert _ _ _ row c Hrow Hc) in Hopen.
      split; [lia |]. split; [apply blacken_shape |].
      assert (Hcell : cellAt (grid (gameState a))
                        (moveTo (cubePosition (gameState a)) dir) = Some c).
      { unfold cellAt. rewrite Hrow. cbn. exact Hc. }
      split.
      * intros _. unfold goalAt. cbn [fst snd].
        pose proof (blacken_cellAt (grid (gameState a))
                      (moveTo (cubePosition (gameState a)) dir).1
                      (moveTo (cubePosition (gameState a)) dir).2
                      (moveTo (cubePosition (gameState a)) dir)) as Hb'.
        rewrite Hcell in Hb'. cbn in Hb'.
        rewrite decide_True in Hb' by (by destruct (moveTo _ _)).
        unfold cellAt in Hb'.
        destruct (index (blacken _ _ _) _) as [row' |]; [| done].
        cbn in Hb'. rewrite Hb'. done.
      * intros pos. rewrite blacken_cellAt.
        destruct (decide (pos = _)) as [Hp | Hp].
        -- right. assert (pos = moveTo (cubePosition (gameState a)) dir) as ->.
           { rewrite Hp. by destruct (moveTo _ _). }
           rewrite Hcell. cbn. by rewrite Hbot.
        -- left. by destruct (cellAt _ pos).
    + split; [done |]. split; [done |]. split; [done |]. by left.
  - destruct Hcase as (Hpos & Hfaces & _ & Hgrid & Hcount & _).
    rewrite Hgrid, Hcount. split; [done |]. split; [done |].
    split; [done | by left].
Qed.

Lemma completeRoll_returns a :
  (Z.to_nat GRID_SIZE ≤ length (grid (gameState a)))%nat →
  (Z.to_nat GRID_SIZE ≤ length (initialGrid (gameState a)))%nat →
  ∃ a', completeRoll a = Ret a'.
Proof.
  destruct a as [[ig gr [px py] fc mv mc st hs sc sm] ro rd ai mq stored].
  cbn. intros Hgr Hig. unfold completeRoll.
  destruct rd as [dir |]; [| by eexists].
  pose proof (simulateAiStats_cases ig) as Hsim.
  destruct dir; cbn [rollDirection gameState cubePosition];
    match goal with
    | |- context [(?cx <? 0) || (?cx >=? GRID_SIZE) || (?cy <? 0) || _] =>
        pose proof (outside_spec cx cy) as Hspec;
        destruct ((cx <? 0) || (cx >=? GRID_SIZE) || (cy <? 0) || (cy >=? GRID_SIZE));
        [ by eexists |];
        destruct (proj1 Hspec eq_refl) as [_ Hy]; cbn in Hy;
        destruct (index_in_range gr cy) as [row Hrow];
        [ unfold GRID_SIZE in *; lia |];
        cbn [grid]; rewrite Hrow;
        destruct (_ && _ && _);
        (case_bool_decide;
         [ cbn [initialGrid];
           destruct (simulateAiStats ig) as [stats | |];
           [ by eexists | unfold GRID_SIZE in *; lia | done ]
         | by eexists ])
    end.
Qed.

Lemma rollOnce_cases dir a a' :
  isRolling a = false → rollDirection a = None →
  rollOnce dir a = Ret a' →
  (status (gameState a) ≠ playing ∧ a' = a)
  ∨ (status (gameState a) = playing ∧ rollOutcome a dir a').
Proof.
  intros Hidle Hnone. unfold rollOnce, handleRoll. rewrite Hidle. cbn [orb].
  case_bool_decide as Hst.
  - unfold completeRoll. rewrite Hnone. intros [= <-]. by left.
  - intros Hres. right. split; [by destruct (status (gameState a)) |].
    by apply (completeRoll_outcome _ dir) in Hres.
Qed.

Lemma rollOutcome_idle a dir a' :
  rollOutcome a dir a' → isRolling a' = false ∧ rollDirection a' = None.
Proof. by intros (? & ? & _). Qed.

Lemma rollOnce_playedOn g dir a a' :
  playedOn g a → rollOnce dir a = Ret a' → playedOn g a'.
Proof.
  intros [[Hidle Hnone] Hinit Hcount Hwon] Hres.
  destruct (rollOnce_cases dir a a' Hidle Hnone Hres) as [[_ ->] | [Hplay Hout]];
    [done |].
  pose proof (rollOutcome_board a dir a' Hout) as (Hcons & _).
  destruct Hout as (Hidle' & Hnone' & _ & Hinit' & Hcase).
  split; [done | congruence | lia |].
  assert (Hopen : matchedCount (gameState a) ≠ 25%nat).
  { intros H25. apply Hwon in H25. congruence. }
  destruct (decide (inGrid _)).
  - destruct Hcase as (_ & _ & _ & _ & _ & -> & _).
    destruct (decide (matchedCount (gameState a') = 25%nat)); [done |].
    rewrite Hplay. split; [discriminate | done].
  - destruct Hcase as (_ & _ & _ & _ & -> & -> & _).
    split; [discriminate | done].
Qed.

Lemma rollAll_playedOn g p a a' :
  playedOn g a → rollAll p a = Ret a' → playedOn g a'.
Proof.
  revert a. induction p as [| dir p IH]; intros a Hinv; cbn.
  - by intros [= <-].
  - destruct (rollOnce dir a) as [a1 | |] eqn:Hroll; cbn; [| done | done].
    apply IH. by eapply rollOnce_playedOn.
Qed.

Lemma newGame_playedOn g stored : playedOn g (newGame g stored).
Proof. by split. Qed.

(** ** The solver at work *)

Lemma bestPathOf_findPath g startX startY startFaces :
  RunAiStep.bestPathOf g startX startY startFaces
  = findPath g startX startY startFaces.
Proof.
  unfold RunAiStep.bestPathOf. rewrite searchLoop_same.
  symmetry. apply findPath_unfold.
Qed.

Lemma completeRoll_withQueue q a :
  completeRoll (withQueue q a)
  = bind (completeRoll a) (λ a', Ret (withQueue q a')).
Proof.
  destruct a as [[ig gr [px py] fc mv mc st hs sc sm] ro rd ai mq stored].
  unfold completeRoll, withQueue.
  cbn [rollDirection gameState cubePosition cubeFaces isRolling isAiSolving
       aiMoveQueue cube_high_score].
  destruct rd as [dir |]; [| done].
  destruct dir; repeat (case_match; try done).
Qed.

Lemma rollOnce_withQueue q dir a :
  rollOnce dir (withQueue q a)
  = bind (rollOnce dir a) (λ a', Ret (withQueue q a')).
Proof.
  unfold rollOnce.
  replace (handleRoll dir (withQueue q a)) with (withQueue q (handleRoll dir a)).
  - apply completeRoll_withQueue.
  - unfold handleRoll, withQueue. cbn. by case_match.
Qed.

Lemma rollAll_withQueue q p a :
  gameOf (rollAll p (withQueue q a)) = gameOf (rollAll p a).
Proof.
  revert a. induction p as [| dir p IH]; intros a; [done |].
  cbn [rollAll]. rewrite rollOnce_withQueue.
  destruct (rollOnce dir a) as [a1 | |]; cbn [bind]; [apply IH | done | done].
Qed.

Lemma rollAll_over p a :
  status (gameState a) ≠ playing → rollDirection a = None →
  rollAll p a = Ret a.
Proof.
  intros Hst Hnone. induction p as [| dir p IH]; [done |].
  cbn [rollAll]. unfold rollOnce, handleRoll.
  rewrite (bool_decide_eq_true_2 _ Hst), orb_true_r.
  unfold completeRoll. rewrite Hnone. cbn. exact IH.
Qed.

Lemma aiRun_over ticks a :
  status (gameState a) ≠ playing → isRolling a = false →
  aiRun ticks a = Ret a.
Proof.
  intros Hst Hidle. induction ticks as [| ticks IH]; [done |].
  cbn [aiRun]. unfold aiTick, runAiStep.
  rewrite (bool_decide_eq_true_2 _ Hst), orb_true_r. cbn.
  unfold animationEnd. rewrite Hidle. cbn. exact IH.
Qed.

Lemma runAiStep_next a dir rest :
  isAiSolving a = true → status (gameState a) = playing →
  isRolling a = false → aiMoveQueue a = dir :: rest →
  runAiStep a = Ret (withQueue rest (midRoll dir a)).
Proof.
  destruct a as [gs ro rd ai mq stored]. cbn. intros -> Hst -> ->.
  unfold runAiStep, handleRoll, withQueue, midRoll. cbn.
  by rewrite (bool_decide_eq_false_2 (status gs ≠ playing)) by tauto.
Qed.

(** With moves in its queue the solver rolls as [rollAll] does. *)
Lemma aiRun_queue p a :
  isRolling a = false → rollDirection a = None →
  isAiSolving a = true ∨ status (gameState a) ≠ playing →
  aiMoveQueue a = p →
  gameOf (aiRun (length p) a) = gameOf (rollAll p a).
Proof.
  revert a. induction p as [| dir p IH]; intros a Hidle Hnone Hon Hq; [done |].
  destruct (decide (status (gameState a) = playing)) as [Hplay | Hover].
  2: { by rewrite aiRun_over, rollAll_over. }
  destruct Hon as [Hon | ?]; [| done].
  cbn [length aiRun rollAll]. unfold aiTick.
  rewrite (runAiStep_next a dir p) by done. cbn [bind].
  assert (Hacc : handleRoll dir a = midRoll dir a).
  { unfold handleRoll. rewrite Hidle.
    by rewrite (bool_decide_eq_false_2 (status (gameState a) ≠ playing)) by tauto. }
  unfold animationEnd, rollOnce. rewrite Hacc.
  cbn [withQueue midRoll isRolling rollDirection].
  change (mkApp (gameState a) true (Some dir) (isAiSolving a) p (cube_high_score a))
    with (withQueue p (midRoll dir a)).
  rewrite completeRoll_withQueue.
  destruct (completeRoll (midRoll dir a)) as [a1 | |] eqn:Hroll;
    cbn [bind]; [| done | done].
  apply (completeRoll_outcome _ dir) in Hroll; [| done].
  rewrite <- (rollAll_withQueue p p a1).
  destruct Hroll as (Hidle1 & Hnone1 & _ & _ & Hcase).
  apply IH; try done. cbn [withQueue isAiSolving gameState].
  destruct (decide (inGrid _)).
  - destruct Hcase as (_ & _ & _ & _ & _ & Hst & Hai & _).
    destruct (decide (matchedCount (gameState a1) = 25%nat)).
    + right. rewrite Hst. discriminate.
    + left. by rewrite Hai.
  - destruct Hcase as (_ & _ & _ & _ & _ & Hst & _).
    right. rewrite Hst. discriminate.
Qed.

(** ** Plays *)

Lemma rollOnce_returns dir a :
  (Z.to_nat GRID_SIZE ≤ length (grid (gameState a)))%nat →
  (Z.to_nat GRID_SIZE ≤ length (initialGrid (gameState a)))%nat →
  ∃ a', rollOnce dir a = Ret a'.
Proof.
  intros Hg Hi. unfold rollOnce. apply completeRoll_returns.
  - unfold handleRoll. by case_match.
  - unfold handleRoll. by case_match.
Qed.

Lemma completeRoll_rows a a' :
  completeRoll a = Ret a' →
  length <$> grid (gameState a') = length <$> grid (gameState a)
  ∧ initialGrid (gameState a') = initialGrid (gameState a).
Proof.
  destruct (rollDirection a) as [dir |] eqn:Hdir.
  - intros Hres. apply (completeRoll_outcome _ dir) in Hres; [| done].
    pose proof (rollOutcome_board _ _ _ Hres) as (_ & Hshape & _).
    by destruct Hres as (_ & _ & _ & Hinit & _).
  - unfold completeRoll. rewrite Hdir. by intros [= <-].
Qed.

Lemma rollAll_returns_rows p a :
  (Z.to_nat GRID_SIZE ≤ length (grid (gameState a)))%nat →
  (Z.to_nat GRID_SIZE ≤ length (initialGrid (gameState a)))%nat →
  ∃ a', rollAll p a = Ret a'.
Proof.
  revert a. induction p as [| dir p IH]; intros a Hg Hi; [by eexists |].
  destruct (rollOnce_returns dir a Hg Hi) as [a1 Hroll].
  cbn [rollAll]. rewrite Hroll. cbn [bind].
  apply completeRoll_rows in Hroll as [Hshape Hinit].
  apply (f_equal length) in Hshape. rewrite !length_fmap in Hshape.
  apply IH.
  - rewrite Hshape. unfold handleRoll. by case_match.
  - rewrite Hinit. unfold handleRoll. by case_match.
Qed.

(** While the game is still on, every roll asked for has been committed. *)
Lemma rollAll_still_playing p a a' :
  isRolling a = false → rollDirection a = None →
  rollAll p a = Ret a' → status (gameState a') = playing →
  status (gameState a) = playing
  ∧ staysInGrid (cubeOf a) p
  ∧ cubeOf a' = rolled (cubeOf a) p
  ∧ moves (gameState a') = (moves (gameState a) + length p)%nat.
Proof.
  revert a. induction p as [| dir p IH]; intros a Hidle Hnone; cbn [rollAll].
  { intros [= <-] Hst. cbn. repeat split; try done; lia. }
  destruct (rollOnce dir a) as [a1 | |] eqn:Hroll; cbn [bind]; [| done | done].
  intros Hrest Hst.
  destruct (rollOnce_cases dir a a1 Hidle Hnone Hroll) as [[Hover ->] | [Hplay Hout]].
  { by destruct (IH a Hidle Hnone Hrest Hst) as [? _]. }
  destruct (rollOutcome_idle _ _ _ Hout) as [Hidle1 Hnone1].
  destruct (IH a1 Hidle1 Hnone1 Hrest Hst) as (Hst1 & Hstay & Hcube & Hmoves).
  destruct Hout as (_ & _ & _ & _ & Hcase).
  destruct (decide (inGrid _)) as [Hin | Hout].
  - destruct Hcase as (Hpos & Hfaces & Hmv & _).
    assert (Hc1 : cubeOf a1 = follow (cubeOf a) dir).
    { rewrite follow_moveTo. unfold cubeOf. by rewrite Hpos, Hfaces. }
    split; [done |]. rewrite Hc1 in Hstay, Hcube. split.
    + cbn [staysInGrid]. split; [by rewrite follow_moveTo | done].
    + split; [done |]. rewrite Hmoves, Hmv. cbn. lia.
  - destruct Hcase as (_ & _ & _ & _ & _ & Hlost & _). congruence.
Qed.

(** The high score moves on the winning roll only, and upwards. *)
Lemma rollAll_highScore p a a' :
  isRolling a = false → rollDirection a = None →
  rollAll p a = Ret a' →
  highScore (gameState a) ≤ highScore (gameState a')
  ∧ (matchedCount (gameState a') ≠ 25%nat →
     highScore (gameState a') = highScore (gameState a)
     ∧ cube_high_score a' = cube_high_score a).
Proof.
  revert a. induction p as [| dir p IH]; intros a Hidle Hnone; cbn [rollAll].
  { intros [= <-]. split; [lia | done]. }
  destruct (rollOnce dir a) as [a1 | |] eqn:Hroll; cbn [bind]; [| done | done].
  intros Hrest.
  destruct (rollOnce_cases dir a a1 Hidle Hnone Hroll) as [[Hover ->] | [Hplay Hout]].
  { by apply IH. }
  destruct (rollOutcome_idle _ _ _ Hout) as [Hidle1 Hnone1].
  destruct (IH a1 Hidle1 Hnone1 Hrest) as [Hle Hsame].
  destruct (decide (matchedCount (gameState a1) = 25%nat)) as [H25 | H25].
  - assert (Hwon : status (gameState a1) ≠ playing).
    { destruct Hout as (_ & _ & _ & _ & Hcase).
      destruct (decide (inGrid _)).
      - destruct Hcase as (_ & _ & _ & _ & _ & -> & _).
        by rewrite decide_True by done.
      - destruct Hcase as (_ & _ & _ & _ & _ & -> & _). done. }
    rewrite (rollAll_over p a1 Hwon Hnone1) in Hrest.
    injection Hrest as <-.
    destruct Hout as (_ & _ & _ & _ & Hcase).
    destruct (decide (inGrid _)).
    + destruct Hcase as (_ & _ & _ & _ & _ & _ & _ & Hhs & _).
      split; [done | by intros ?].
    + destruct Hcase as (_ & _ & _ & _ & _ & _ & _ & Hhs & _).
      split; [lia | by intros ?].
  - destruct Hout as (_ & _ & _ & _ & Hcase).
    destruct (decide (inGrid _)).
    + destruct Hcase as (_ & _ & _ & _ & _ & _ & _ & Hhs & Hkeep).
      destruct (Hkeep H25) as [Hh Hs]. split; [lia |].
      intros Hne. destruct (Hsame Hne) as [-> ->]. done.
    + destruct Hcase as (_ & _ & _ & _ & _ & _ & _ & Hh & Hs).
      split; [lia |]. intros Hne. destruct (Hsame Hne) as [-> ->]. done.
Qed.

(** After a roll the cube does not rest on a cell that passes the goal
    test. *)
Lemma rollAll_off_goal p a a' :
  isRolling a = false → rollDirection a = None →
  goalAt (grid (gameState a)) (cubeOf a) = false →
  rollAll p a = Ret a' →
  goalAt (grid (gameState a')) (cubeOf a') = false.
Proof.
  revert a. induction p as [| dir p IH]; intros a Hidle Hnone Hoff; cbn [rollAll].
  { by intros [= <-]. }
  destruct (rollOnce dir a) as [a1 | |] eqn:Hroll; cbn [bind]; [| done | done].
  destruct (rollOnce_cases dir a a1 Hidle Hnone Hroll) as [[Hover ->] | [Hplay Hout]].
  { by apply IH. }
  destruct (rollOutcome_idle _ _ _ Hout) as [Hidle1 Hnone1].
  apply IH; try done.
  pose proof (rollOutcome_board _ _ _ Hout) as (_ & _ & Hgoal & _).
  destruct Hout as (_ & _ & _ & _ & Hcase).
  destruct (decide (inGrid _)) as [Hin | Hno]; [by apply Hgoal |].
  destruct Hcase as (Hpos & Hfaces & _ & Hgrid & _).
  unfold cubeOf. by rewrite Hpos, Hfaces, Hgrid.
Qed.


(** ** Further results *)

(** X4.  A path returned by [findPath] from a cell of the board keeps the
    cube on the board, ends in a state that passes the goal test, passes
    through none before its end and has at most 16 rolls. *)
Theorem findPath_reaches_goal (g : Grid) (sx sy : Z) (sf : CubeOrientation)
    (p : list Direction) :
  inGrid (sx, sy) → findPath g sx sy sf = Ret (Some p) →
  staysInGrid ((sx, sy), sf) p
  ∧ goalAt g (rolled ((sx, sy), sf) p) = true
  ∧ (∀ p1 p2, p = p1 ++ p2 → p2 ≠ [] →
       goalAt g (rolled ((sx, sy), sf) p1) = false)
  ∧ (length p ≤ 16)%nat.
Proof.
  intros Hin Hres.
  destruct (findPath_sound g ((sx, sy), sf) p Hin Hres) as (? & _ & ? & ? & ?).
  done.
Qed.

Lemma findPath_reaches_goal_witness :
  staysInGrid ((2, 2), INITIAL_CUBE_FACES) [Up]
  ∧ goalAt redBoard (rolled ((2, 2), INITIAL_CUBE_FACES) [Up]) = true
  ∧ (∀ p1 p2, [Up] = p1 ++ p2 → p2 ≠ [] →
       goalAt redBoard (rolled ((2, 2), INITIAL_CUBE_FACES) p1) = false)
  ∧ (length [Up] ≤ 16)%nat.
Proof.
  apply (findPath_reaches_goal redBoard 2 2 INITIAL_CUBE_FACES [Up]).
  - unfold inGrid, GRID_SIZE. cbn. lia.
  - vm_compute. reflexivity.
Defined.

(** On a board without a cell that passes the goal test for any cube, the
    search from a cell of the board reports that there is no path. *)
Lemma findPath_no_goal (g : Grid) (s0 : CubeState) :
  inGrid s0.1 → (Z.to_nat GRID_SIZE ≤ length g)%nat →
  (∀ s, goalAt g s = false) →
  findPath g s0.1.1 s0.1.2 s0.2 = Ret None.
Proof.
  intros Hin Hg Hno.
  pose proof (findPath_rows g s0 Hin Hg) as Hthrow.
  pose proof (findPath_terminates g s0.1.1 s0.1.2 s0.2) as Hend.
  destruct (findPath g s0.1.1 s0.1.2 s0.2) as [[p |] | |] eqn:Hret;
    [| done | done | done].
  apply (findPath_sound g s0 p Hin) in Hret as (_ & _ & _ & Hgoal & _).
  by rewrite Hno in Hgoal.
Qed.

(** No cell of the all-BLACK board passes the goal test. *)
Lemma goalAt_blackBoard (s : CubeState) : goalAt blackBoard s = false.
Proof.
  unfold goalAt. destruct (index blackBoard s.1.2) as [row |] eqn:Hrow; [| done].
  apply index_Some in Hrow as [_ Hrow].
  apply lookup_replicate in Hrow as [-> _].
  destruct (index (replicate 5 BLACK) s.1.1) as [c |] eqn:Hc.
  - apply index_Some in Hc as [_ Hc].
    apply lookup_replicate in Hc as [-> _]. done.
  - rewrite (bool_decide_eq_false_2 (Some (bottom s.2) = None)) by done.
    by rewrite andb_false_r.
Qed.

(** So the search finds nothing on it. *)
Lemma findPath_blackBoard (s0 : CubeState) :
  inGrid s0.1 → findPath blackBoard s0.1.1 s0.1.2 s0.2 = Ret None.
Proof.
  intros Hin. apply findPath_no_goal; [done | | apply goalAt_blackBoard].
  vm_compute. lia.
Qed.

(** X5.  For a cube with six different colours on a cell of the board: when
    [findPath] reports no path, no sequence of at most 16 rolls that stays
    on the board ends in a state passing the goal test. *)
Theorem findPath_none_exhaustive (g : Grid) (sx sy : Z)
    (sf : CubeOrientation) (q : list Direction) :
  inGrid (sx, sy) → distinctFaces sf →
  findPath g sx sy sf = Ret None →
  (length q ≤ 16)%nat → staysInGrid ((sx, sy), sf) q →
  goalAt g (rolled ((sx, sy), sf) q) = false.
Proof.
  intros Hin Hd Hres Hq Hstay.
  by apply (findPath_none g ((sx, sy), sf) Hin Hd q).
Qed.

Lemma findPath_none_exhaustive_witness :
  goalAt blackBoard (rolled ((2, 2), INITIAL_CUBE_FACES) [Up; Left]) = false.
Proof.
  apply (findPath_none_exhaustive blackBoard 2 2 INITIAL_CUBE_FACES [Up; Left]).
  - unfold inGrid, GRID_SIZE. cbn. lia.
  - apply (bool_decide_unpack (distinctFaces INITIAL_CUBE_FACES)).
    vm_compute. exact I.
  - apply (findPath_blackBoard ((2, 2), INITIAL_CUBE_FACES)).
    unfold inGrid, GRID_SIZE. cbn. lia.
  - cbn. lia.
  - cbn. unfold inGrid, GRID_SIZE. cbn. lia.
Defined.

(** X6.  From a cell of the board [findPath] returns the empty path exactly
    when the start state itself passes the goal test. *)
Theorem findPath_empty_iff (g : Grid) (sx sy : Z) (sf : CubeOrientation) :
  inGrid (sx, sy) →
  findPath g sx sy sf = Ret (Some []) ↔ goalAt g ((sx, sy), sf) = true.
Proof.
  intros Hin. split.
  - intros Hres.
    by destruct (findPath_sound g ((sx, sy), sf) [] Hin Hres) as (_ & _ & _ & ? & _).
  - intros Hgoal. rewrite findPath_unfold. change searchBudget with (S 2026).
    by apply (searchLoop_hit 2026 g (mkNode sx sy sf [])).
Qed.

Lemma findPath_empty_iff_witness :
  findPath pinkBoard 2 2 INITIAL_CUBE_FACES = Ret (Some [])
  ↔ goalAt pinkBoard ((2, 2), INITIAL_CUBE_FACES) = true.
Proof.
  apply (findPath_empty_iff pinkBoard 2 2 INITIAL_CUBE_FACES).
  unfold inGrid, GRID_SIZE. cbn. lia.
Defined.

(** X7.  From a cell of the board [findPath] returns an answer on every
    grid of at least five rows, whatever the length of the rows; it throws
    when the row of the start cell is missing. *)
Theorem findPath_rows_outcome (g : Grid) (sx sy : Z) (sf : CubeOrientation) :
  inGrid (sx, sy) →
  ((Z.to_nat GRID_SIZE ≤ length g)%nat →
   ∃ answer, findPath g sx sy sf = Ret answer)
  ∧ ((length g ≤ Z.to_nat sy)%nat → findPath g sx sy sf = Throw).
Proof.
  intros Hin. split.
  - intros Hrows.
    pose proof (findPath_terminates g sx sy sf) as Hterm.
    pose proof (findPath_rows g ((sx, sy), sf) Hin Hrows) as Hthrow.
    cbn [fst snd] in Hthrow.
    destruct (findPath g sx sy sf) as [answer | |]; [by eexists | done | done].
  - intros Hshort. rewrite findPath_unfold. change searchBudget with (S 2026).
    apply (searchLoop_missing_row 2026 g (mkNode sx sy sf [])).
    unfold index. cbn [y]. destruct Hin as [_ [Hy _]]. cbn in Hy.
    rewrite decide_True by done. apply lookup_ge_None. lia.
Qed.

Lemma findPath_rows_outcome_witness :
  ((Z.to_nat GRID_SIZE ≤ length hollowBoard)%nat →
   ∃ answer, findPath hollowBoard 2 2 INITIAL_CUBE_FACES = Ret answer)
  ∧ ((length hollowBoard ≤ Z.to_nat 2)%nat →
     findPath hollowBoard 2 2 INITIAL_CUBE_FACES = Throw).
Proof.
  apply (findPath_rows_outcome hollowBoard 2 2 INITIAL_CUBE_FACES).
  unfold inGrid, GRID_SIZE. cbn. lia.
Defined.

(** X8.  On every grid [simulateAiStats] comes to an end.  It throws only
    on a grid of fewer than five rows; otherwise its move count is at most
    16 for each cell that is not BLACK, and its efficiency is the one of
    that move count. *)
Theorem simulateAiStats_outcome (initial : Grid) :
  match simulateAiStats initial with
  | Ret stats =>
      stats.1 = efficiencyOf stats.2
      ∧ (stats.2 ≤ 16 * nonBlack initial)%nat
  | Throw => (length initial < Z.to_nat GRID_SIZE)%nat
  | OutOfBudget => False
  end.
Proof. exact (simulateAiStats_cases initial). Qed.

(** X9.  [completeRoll] never touches the initial grid and keeps the
    number and the lengths of the rows of the board.  The only cell it can
    change is the one the cube comes to rest on, which it turns BLACK, and
    only when that cell had the colour of the new bottom face. *)
Theorem completeRoll_board (a a' : App) :
  completeRoll a = Ret a' →
  initialGrid (gameState a') = initialGrid (gameState a)
  ∧ length <$> grid (gameState a') = length <$> grid (gameState a)
  ∧ ∀ pos,
      cellAt (grid (gameState a')) pos = cellAt (grid (gameState a)) pos
      ∨ (pos = cubePosition (gameState a')
         ∧ cellAt (grid (gameState a')) pos = Some BLACK
         ∧ cellAt (grid (gameState a)) pos
           = Some (bottom (cubeFaces (gameState a')))).
Proof.
  intros Hres. destruct (completeRoll_rows a a' Hres) as [Hshape Hinit].
  split; [done |]. split; [done |].
  destruct (rollDirection a) as [dir |] eqn:Hdir.
  - apply (completeRoll_outcome _ dir) in Hres; [| done].
    by pose proof (rollOutcome_board _ _ _ Hres) as (_ & _ & _ & ?).
  - unfold completeRoll in Hres. rewrite Hdir in Hres.
    injection Hres as <-. by left.
Qed.

Lemma completeRoll_board_witness :
  initialGrid (gameState afterUp)
  = initialGrid (gameState (midRoll Up (newGame redBoard None)))
  ∧ length <$> grid (gameState afterUp)
    = length <$> grid (gameState (midRoll Up (newGame redBoard None)))
  ∧ ∀ pos,
      cellAt (grid (gameState afterUp)) pos
      = cellAt (grid (gameState (midRoll Up (newGame redBoard None)))) pos
      ∨ (pos = cubePosition (gameState afterUp)
         ∧ cellAt (grid (gameState afterUp)) pos = Some BLACK
         ∧ cellAt (grid (gameState (midRoll Up (newGame redBoard None)))) pos
           = Some (bottom (cubeFaces (gameState afterUp)))).
Proof.
  apply (completeRoll_board (midRoll Up (newGame redBoard None)) afterUp).
  vm_compute. reflexivity.
Defined.

(** X10.  On a board and an initial grid of at least five rows, whatever
    the length of the rows, no sequence of rolls makes the game throw: a
    cell missing from a short row matches nothing. *)
Theorem rollAll_never_fails (p : list Direction) (a : App) :
  (Z.to_nat GRID_SIZE ≤ length (grid (gameState a)))%nat →
  (Z.to_nat GRID_SIZE ≤ length (initialGrid (gameState a)))%nat →
  ∃ a', rollAll p a = Ret a'.
Proof. apply rollAll_returns_rows. Qed.

Lemma rollAll_never_fails_witness :
  ∃ a', rollAll [Up; Up; Up] (newGame hollowBoard None) = Ret a'.
Proof.
  apply (rollAll_never_fails [Up; Up; Up] (newGame hollowBoard None)).
  - vm_compute. lia.
  - vm_compute. lia.
Defined.

(** X11.  Throughout a game played from [newGame] on the board [g], the
    matched counter and the number of open cells (neither BLACK nor GRAY)
    add up to one more than the open cells of [g]; the game is won exactly
    when the counter is 25; the initial grid stays [g]. *)
Theorem play_counter (g : Grid) (stored : option Z) (p : list Direction)
    (a' : App) :
  rollAll p (newGame g stored) = Ret a' →
  (matchedCount (gameState a') + openCells (grid (gameState a'))
   = 1 + openCells g)%nat
  ∧ (status (gameState a') = won ↔ matchedCount (gameState a') = 25%nat)
  ∧ initialGrid (gameState a') = g.
Proof.
  intros Hres.
  by destruct (rollAll_playedOn g p _ a' (newGame_playedOn g stored) Hres).
Qed.

Lemma play_counter_witness :
  (matchedCount (gameState afterUp) + openCells (grid (gameState afterUp))
   = 1 + openCells redBoard)%nat
  ∧ (status (gameState afterUp) = won
     ↔ matchedCount (gameState afterUp) = 25%nat)
  ∧ initialGrid (gameState afterUp) = redBoard.
Proof.
  apply (play_counter redBoard None [Up] afterUp).
  vm_compute. reflexivity.
Defined.

(** X12.  A game on a board with fewer than 24 open cells, such as a loaded
    map with short rows, is never won. *)
Theorem play_unwinnable (g : Grid) (stored : option Z) (p : list Direction)
    (a' : App) :
  (openCells g < 24)%nat →
  rollAll p (newGame g stored) = Ret a' →
  status (gameState a') ≠ won.
Proof.
  intros Hopen Hres.
  destruct (rollAll_playedOn g p _ a' (newGame_playedOn g stored) Hres)
    as [_ _ Hcount Hwon].
  intros H25%Hwon. lia.
Qed.

Lemma play_unwinnable_witness : status (gameState fallenOffHollow) ≠ won.
Proof.
  apply (play_unwinnable hollowBoard None [Up; Up; Up] fallenOffHollow).
  - vm_compute. lia.
  - vm_compute. reflexivity.
Defined.

(** X13.  If the cube does not start on a cell that passes the goal test,
    it never rests on one after any sequence of rolls, and [findPath] for
    the state reached never returns the empty path. *)
Theorem play_off_goal (p : list Direction) (a a' : App) :
  isRolling a = false → rollDirection a = None →
  goalAt (grid (gameState a)) (cubeOf a) = false →
  rollAll p a = Ret a' →
  goalAt (grid (gameState a')) (cubeOf a') = false
  ∧ (inGrid (cubePosition (gameState a')) →
     findPath (grid (gameState a')) (cubePosition (gameState a')).1
       (cubePosition (gameState a')).2 (cubeFaces (gameState a'))
     ≠ Ret (Some [])).
Proof.
  intros Hidle Hnone Hoff Hres.
  pose proof (rollAll_off_goal p a a' Hidle Hnone Hoff Hres) as Hoff'.
  split; [done |]. intros Hin Hempty.
  destruct (findPath_sound (grid (gameState a')) (cubeOf a') [] Hin Hempty)
    as (_ & _ & _ & Hgoal & _).
  cbn in Hgoal. congruence.
Qed.

Lemma play_off_goal_witness :
  goalAt (grid (gameState afterUp)) (cubeOf afterUp) = false
  ∧ (inGrid (cubePosition (gameState afterUp)) →
     findPath (grid (gameState afterUp)) (cubePosition (gameState afterUp)).1
       (cubePosition (gameState afterUp)).2 (cubeFaces (gameState afterUp))
     ≠ Ret (Some [])).
Proof.
  apply (play_off_goal [Up] (newGame redBoard None) afterUp).
  - reflexivity.
  - reflexivity.
  - vm_compute. reflexivity.
  - vm_compute. reflexivity.
Defined.

(** X14.  While a roll is on show further input is dropped: of two calls
    of [handleRoll] in a row the second changes nothing, and neither does a
    key pressed after the first. *)
Theorem handleRoll_drops_second (d1 d2 : Direction) (key : string) (a : App) :
  handleRoll d2 (handleRoll d1 a) = handleRoll d1 a
  ∧ handleKeyDown key (handleRoll d1 a) = handleRoll d1 a.
Proof.
  assert (H : ∀ d, handleRoll d (handleRoll d1 a) = handleRoll d1 a).
  { intros d. unfold handleRoll.
    destruct (isRolling a) eqn:Hro; cbn [orb].
    - by rewrite Hro.
    - case_bool_decide as Hst; cbn [gameState isRolling orb]; [| done].
      by rewrite Hro, (bool_decide_eq_true_2 _ Hst). }
  split; [apply H |]. unfold handleKeyDown.
  repeat case_match; try done; apply H.
Qed.


(** X16.  With the solver on, the game in play and nothing in flight or
    queued, let [findPath] return a path for the current board and cube.
    One firing of the timer queues the path, and as many further firings
    as the path has rolls, each followed by the end of its animation,
    leave the game that [rollAll] leaves for the path. *)
Theorem autoplay_executes_plan (a : App) (p : list Direction) :
  isAiSolving a = true → status (gameState a) = playing →
  isRolling a = false → rollDirection a = None → aiMoveQueue a = [] →
  findPath (grid (gameState a)) (cubePosition (gameState a)).1
    (cubePosition (gameState a)).2 (cubeFaces (gameState a)) = Ret (Some p) →
  gameOf (aiRun (S (length p)) a) = gameOf (rollAll p a).
Proof.
  intros Hon Hplay Hidle Hnone Hq Hres.
  cbn [aiRun]. unfold aiTick, runAiStep.
  rewrite Hon, Hidle, Hq, bestPathOf_findPath, Hres.
  rewrite (bool_decide_eq_false_2 (status (gameState a) ≠ playing)) by tauto.
  cbn [negb orb bind]. unfold animationEnd. cbn [isRolling bind].
  change (mkApp (gameState a) false (rollDirection a) true p (cube_high_score a))
    with (withQueue p (mkApp (gameState a) false (rollDirection a) true []
                         (cube_high_score a))).
  assert (Ha : mkApp (gameState a) false (rollDirection a) true []
                 (cube_high_score a) = a).
  { clear Hres. destruct a. cbn in *. by subst. }
  rewrite Ha, aiRun_queue; try done.
  - apply rollAll_withQueue.
  - by left.
Qed.

Lemma autoplay_executes_plan_witness :
  gameOf (aiRun (S (length [Up])) (solverOn redBoard))
  = gameOf (rollAll [Up] (solverOn redBoard)).
Proof.
  apply (autoplay_executes_plan (solverOn redBoard) [Up]).
  - reflexivity.
  - reflexivity.
  - reflexivity.
  - reflexivity.
  - reflexivity.
  - vm_compute. reflexivity.
Defined.

(** X17.  In the same situation, when [findPath] reports no path the first
    firing of the timer switches the solver off, and no later firing
    changes anything. *)
Theorem autoplay_gives_up (a : App) (ticks : nat) :
  isAiSolving a = true → status (gameState a) = playing →
  isRolling a = false → aiMoveQueue a = [] →
  findPath (grid (gameState a)) (cubePosition (gameState a)).1
    (cubePosition (gameState a)).2 (cubeFaces (gameState a)) = Ret None →
  aiRun (S ticks) a
  = Ret (mkApp (gameState a) false (rollDirection a) false []
           (cube_high_score a)).
Proof.
  intros Hon Hplay Hidle Hq Hres.
  cbn [aiRun]. unfold aiTick at 1. unfold runAiStep.
  rewrite Hon, Hidle, Hq, bestPathOf_findPath, Hres.
  rewrite (bool_decide_eq_false_2 (status (gameState a) ≠ playing)) by tauto.
  cbn [negb orb bind]. unfold animationEnd at 1. cbn [isRolling bind].
  induction ticks as [| ticks IH]; [done |].
  cbn [aiRun]. unfold aiTick, runAiStep, animationEnd.
  cbn [isAiSolving isRolling negb orb bind]. exact IH.
Qed.

Lemma autoplay_gives_up_witness :
  aiRun (S 2) (solverOn blackBoard)
  = Ret (mkApp (gameState (solverOn blackBoard)) false
           (rollDirection (solverOn blackBoard)) false []
           (cube_high_score (solverOn blackBoard))).
Proof.
  apply (autoplay_gives_up (solverOn blackBoard) 2).
  - reflexivity.
  - reflexivity.
  - reflexivity.
  - reflexivity.
  - apply (findPath_blackBoard ((2, 2), INITIAL_CUBE_FACES)).
    unfold inGrid, GRID_SIZE. cbn. lia.
Defined.

(** X18.  [handleLoadMap] checks the number of rows only and leaves a roll
    on show in flight.  When a map of five rows is loaded during a roll,
    the end of the animation commits that roll on the new board, from the
    start cell: the game is then in play one cell off the centre with one
    move counted. *)
Theorem loadMap_mid_roll (parsed : Grid) (a : App) (dir : Direction) :
  isRolling a = true → rollDirection a = Some dir →
  length parsed = 5%nat →
  ∃ a', animationEnd (loadMap parsed a) = Ret a'
    ∧ initialGrid (gameState a') = parsed
    ∧ cubePosition (gameState a') = moveTo (2, 2) dir
    ∧ cubeFaces (gameState a') = rotateOrientation INITIAL_CUBE_FACES dir
    ∧ moves (gameState a') = 1%nat
    ∧ status (gameState a') = playing.
Proof.
  intros Hro Hdir Hlen. unfold loadMap, animationEnd.
  rewrite bool_decide_eq_true_2 by (unfold GRID_SIZE; lia).
  cbn [isRolling rollDirection]. rewrite Hro, Hdir.
  set (b := mkApp _ true (Some dir) false [] (cube_high_score a)).
  destruct (completeRoll_returns b) as [a' Hres].
  { subst b. cbn [gameState grid]. unfold GRID_SIZE. lia. }
  { subst b. cbn [gameState initialGrid]. unfold GRID_SIZE. lia. }
  exists a'. split; [done |].
  apply (completeRoll_outcome _ dir) in Hres; [| done].
  destruct Hres as (_ & _ & _ & Hinit & Hcase). cbn in Hinit, Hcase.
  rewrite decide_True in Hcase
    by (unfold inGrid, GRID_SIZE; destruct dir; cbn; lia).
  destruct Hcase as (Hpos & Hfaces & Hmv & _ & Hcount & Hst & _).
  repeat split; try done.
  rewrite Hst. rewrite decide_False; [done |].
  rewrite Hcount. destruct (goalAt parsed _); lia.
Qed.

Lemma loadMap_mid_roll_witness :
  ∃ a', animationEnd (loadMap hollowBoard atLeftEdge) = Ret a'
    ∧ initialGrid (gameState a') = hollowBoard
    ∧ cubePosition (gameState a') = moveTo (2, 2) Left
    ∧ cubeFaces (gameState a') = rotateOrientation INITIAL_CUBE_FACES Left
    ∧ moves (gameState a') = 1%nat
    ∧ status (gameState a') = playing.
Proof.
  apply (loadMap_mid_roll hollowBoard atLeftEdge Left).
  - reflexivity.
  - reflexivity.
  - reflexivity.
Defined.





(** X21.  If a game played from [newGame] is still in play after a
    sequence of rolls was asked for, every one of them was committed: the
    rolls stayed on the board, the cube is where they lead from the start
    cell, and the move counter is their number. *)
Theorem play_committed (g : Grid) (stored : option Z) (p : list Direction)
    (a' : App) :
  rollAll p (newGame g stored) = Ret a' →
  status (gameState a') = playing →
  staysInGrid ((2, 2), INITIAL_CUBE_FACES) p
  ∧ cubeOf a' = rolled ((2, 2), INITIAL_CUBE_FACES) p
  ∧ moves (gameState a') = length p.
Proof.
  intros Hres Hst.
  by destruct (rollAll_still_playing p (newGame g stored) a' eq_refl eq_refl
                 Hres Hst) as (_ & ? & ? & ?).
Qed.

Lemma play_committed_witness :
  staysInGrid ((2, 2), INITIAL_CUBE_FACES) [Up]
  ∧ cubeOf afterUp = rolled ((2, 2), INITIAL_CUBE_FACES) [Up]
  ∧ moves (gameState afterUp) = length [Up].
Proof.
  apply (play_committed redBoard None [Up] afterUp).
  - vm_compute. reflexivity.
  - reflexivity.
Defined.

(** X22.  In a game played from [newGame] the high score never goes down,
    and as long as the game is not won both the high score and the stored
    score are the ones the game started with. *)
Theorem play_highScore (g : Grid) (stored : option Z) (p : list Direction)
    (a' : App) :
  rollAll p (newGame g stored) = Ret a' →
  default 0 stored ≤ highScore (gameState a')
  ∧ (status (gameState a') ≠ won →
     highScore (gameState a') = default 0 stored
     ∧ cube_high_score a' = stored).
Proof.
  intros Hres.
  destruct (rollAll_highScore p (newGame g stored) a' eq_refl eq_refl Hres)
    as [Hle Hsame].
  split; [done |]. intros Hst. apply Hsame.
  destruct (rollAll_playedOn g p _ a' (newGame_playedOn g stored) Hres)
    as [_ _ _ Hwon].
  intros H25. by apply Hst, Hwon.
Qed.

Lemma play_highScore_witness :
  default 0 None ≤ highScore (gameState afterUp)
  ∧ (status (gameState afterUp) ≠ won →
     highScore (gameState afterUp) = default 0 None
     ∧ cube_high_score afterUp = None).
Proof.
  apply (play_highScore redBoard None [Up] afterUp).
  vm_compute. reflexivity.
Defined.
